(** * SqliteFind: record parsing tools of [sqlitetools.py]

    A shallow embedding of the Python 2 module [sqlitetools.py] and the
    properties of its varint codec, column decoder, record parser and
    backward varint scanner.

    Python integers are unbounded, so they are modelled by [Z]; a buffer
    is a Python 2 [str], modelled by a list of bytes; an exception is an
    explicit error result. *)

From Stdlib Require Import ZArith Lia Bool.
From Stdlib Require Import Strings.Byte.
From stdpp Require Import base option list strings gmap.
From Equations Require Import Equations.
From Equations.Prop Require Import Logic.

Local Open Scope Z_scope.

(** ** Exceptions *)

(** The messages of the [SqliteParseError]s raised in the module, one
    constructor per [raise] site (the two header-length range messages of
    [parse_record] are told apart by a flag). *)
Inductive reason : Type :=
| MissingMarker            (* "B-Tree Leaf Cell header 0x0d not present" *)
| BufferExhausted          (* "Ran off end of buffer while reading varint" *)
| HeaderTooShort           (* "Header length {} too small" *)
| HeaderLengthOutOfRange (too_long : bool)
                           (* "Header length of {} is too long/short for {} cols" *)
| HeaderLengthMismatch     (* "Record header was not the correct length." *)
| ColumnCountMismatch      (* "Expected {} columns, got {}" *)
| TypeConstraintViolation  (* "Serial type for col {} was {}, not one of ...";
                              its [raise] never completes, see [check_type_sets] *)
| ReservedSerialType       (* "Reserved serial_type {} used" *)
| ColumnOverrun            (* "Tried to read column value off end of buffer." *)
| PayloadLengthMismatch    (* "Payload length field does not match ..." *)
| MalformedVarint.         (* "Varint ended with 0x80 bit set but was not 9 bytes." *)

(** The exceptions a call of the module can end with. *)
Inductive exn : Type :=
| SqliteParseError (r : reason)
| IndexError
| NameError
| NotImplementedError
| ValueError
| AssertionError
| StructError.

Inductive result (A : Type) : Type :=
| OK (a : A)
| Err (e : exn).
Arguments OK {A} a.
Arguments Err {A} e.

#[global] Instance result_ret : MRet result := fun _ a => OK a.
#[global] Instance result_bind : MBind result := fun _ _ f m =>
  match m with
  | OK a => f a
  | Err e => Err e
  end.

(** ** Python primitives *)

Definition len {A} (buf : list A) : Z := Z.of_nat (length buf).

Definition ord (b : byte) : Z := Z.of_N (Byte.to_N b).

(** [chr(x)]: [ValueError] outside [range(256)]. *)
Definition chr (x : Z) : result byte :=
  if (x <? 0) || (256 <=? x) then Err ValueError
  else match Byte.of_N (Z.to_N x) with
       | Some b => OK b
       | None => Err ValueError
       end.

(** [buf[i]]: a negative index counts from the end; [IndexError] outside
    [-len(buf) .. len(buf)-1]. *)
Definition py_index (buf : list byte) (i : Z) : result byte :=
  let j := if i <? 0 then i + len buf else i in
  if (j <? 0) || (len buf <=? j) then Err IndexError
  else match buf !! Z.to_nat j with
       | Some b => OK b
       | None => Err IndexError
       end.

(** The index adjustment of a slice bound. *)
Definition py_clamp (n i : Z) : Z :=
  let j := if i <? 0 then i + n else i in
  if j <? 0 then 0 else if n <=? j then n else j.

(** [buf[lo:hi]]: bounds are adjusted, never an error. *)
Definition py_slice (buf : list byte) (lo hi : Z) : list byte :=
  let a := py_clamp (len buf) lo in
  let b := py_clamp (len buf) hi in
  take (Z.to_nat (b - a)) (drop (Z.to_nat a) buf).

(** [range(hi, -1, -1)] *)
Definition range_down (hi : Z) : list Z :=
  Z.of_nat <$> reverse (seq 0 (Z.to_nat (hi + 1))).

(** [int(''.join(map(str, bits)), 2)] *)
Definition int_of_bits (bits : list Z) : Z :=
  fold_left (fun acc b => 2 * acc + b) bits 0.

(** The binary digits of a positive number, most significant first. *)
Fixpoint pos_bits (p : positive) : list Z :=
  match p with
  | xH => [1]
  | xO q => pos_bits q ++ [0]
  | xI q => pos_bits q ++ [1]
  end.

(** [bin(i)[2:]] for [0 <= i]. *)
Definition bin_digits (i : Z) : list Z :=
  match i with
  | Zpos p => pos_bits p
  | _ => [0]
  end.

(** ** Two's complement *)

(** [twos_comp(uint, n_bits)]. A shift by a negative count raises
    [ValueError]. *)
Definition twos_comp (uint n_bits : Z) : result Z :=
  if n_bits - 1 <? 0 then Err ValueError
  else if negb (Z.shiftr uint (n_bits - 1) =? 0) then
    OK (- (Z.land (Z.lnot (uint - 1)) (Z.shiftl 1 n_bits - 1)))
  else OK uint.

(** The accumulation loop of [parse_twos_comp_bytes] over
    [enumerate(buf[::-1])]. *)
Fixpoint twos_comp_sum (i : Z) (rbuf : list byte) (num : Z) : Z :=
  match rbuf with
  | [] => num
  | byte :: rest => twos_comp_sum (i + 1) rest (num + ord byte * i ^ 256)
  end.

(** [parse_twos_comp_bytes(buf)] with [n_bits] left to its default. *)
Definition parse_twos_comp_bytes (buf : list byte) : result Z :=
  let n_bits := len buf * 8 in
  let num := twos_comp_sum 0 (reverse buf) 0 in
  twos_comp num n_bits.

(** [encode_twos_comp_bits(i, n_bits)] *)
Definition encode_twos_comp_bits (i n_bits : Z) : result (list Z) :=
  if i <? 0 then Err NotImplementedError
  else if Z.shiftl 1 (n_bits - 1) <=? i then Err ValueError
  else OK (bin_digits i).

(** ** Varints *)

(** The [for i in range(9)] loop of [parse_varint]; [k] counts the values
    of the range still to come. Returns the bits and the last value of
    [i]. *)
Fixpoint parse_varint_loop (k : nat) (buf : list byte) (start : Z) (i : nat)
    (bits : list Z) : result (list Z * nat) :=
  match k with
  | O => OK (bits, Nat.pred i)
  | S k' =>
    if len buf <=? start + Z.of_nat i then
      Err (SqliteParseError BufferExhausted)
    else
      b ← py_index buf (start + Z.of_nat i);
      let byte := ord b in
      let bits' := bits ++ ((fun j => Z.land (Z.shiftr byte j) 1) <$>
                            range_down (if Nat.eqb i 8 then 8 else 6)) in
      if negb (Z.land byte 128 =? 128) then OK (bits', i)
      else parse_varint_loop k' buf start (S i) bits'
  end.

(** [parse_varint(buf, start)] *)
Definition parse_varint (buf : list byte) (start : Z) : result (Z * Z) :=
  '(bits, i) ← parse_varint_loop 9 buf start 0 [];
  let x := int_of_bits bits in
  v ← twos_comp x 64;
  OK (v, Z.of_nat i + 1).

(** [encode_varint(i)]; the result is a one-character string. *)
Definition encode_varint (i : Z) : result (list byte) :=
  i_bits ← encode_twos_comp_bits i 64;
  if 7 <? len i_bits then Err NotImplementedError
  else c ← chr (int_of_bits (0 :: i_bits)); OK [c].

(** The round trip of one value, as a boolean. *)
Definition roundtrip_ok (v : Z) : bool :=
  match encode_varint v with
  | OK [b] =>
    (ord b =? v) &&
    match parse_varint [b] 0 with
    | OK (v', w) => (v' =? v) && (w =? 1)
    | Err _ => false
    end
  | _ => false
  end.

(** The base-128 number whose digits are the low seven bits of the
    bytes, most significant first: the value of a varint of at most
    eight bytes. *)
Definition base128 (bs : list byte) : Z :=
  fold_left (fun acc b => 128 * acc + Z.land (ord b) 127) bs 0.

(** ** Column values *)

(** The Python values [parse_column] returns: [None], an integer, the
    result of [struct.unpack('>d', ...)] (kept as its eight raw big-endian
    bytes) and a [str] slice of the buffer, for blobs and text alike. *)
Inductive value : Type :=
| VNone
| VInt (z : Z)
| VFloat (raw : list byte)
| VStr (s : list byte).

(** The local function [len_check(l)] of [parse_column]. *)
Definition len_check (buf : list byte) (start l : Z) : result unit :=
  if len buf - start <? l then Err (SqliteParseError ColumnOverrun)
  else OK tt.

(** The integer branches of [parse_column], for a width of [w] bytes. *)
Definition parse_int_column (buf : list byte) (start w : Z)
    : result (value * Z) :=
  _ ← len_check buf start w;
  v ← parse_twos_comp_bytes (py_slice buf start (start + w));
  OK (VInt v, w).

(** [struct.unpack('>d', s)[0]]: [struct.error] unless [s] has 8 bytes. *)
Definition unpack_double (s : list byte) : result value :=
  if len s =? 8 then OK (VFloat s) else Err StructError.

(** [parse_column(serial_type, buf, start)]. [/] is the integer (floor)
    division of Python 2. *)
Definition parse_column (serial_type : Z) (buf : list byte) (start : Z)
    : result (value * Z) :=
  if serial_type =? 0 then OK (VNone, 0)
  else if serial_type =? 1 then parse_int_column buf start 1
  else if serial_type =? 2 then parse_int_column buf start 2
  else if serial_type =? 3 then parse_int_column buf start 3
  else if serial_type =? 4 then parse_int_column buf start 4
  else if serial_type =? 5 then parse_int_column buf start 6
  else if serial_type =? 6 then parse_int_column buf start 8
  else if serial_type =? 7 then
    _ ← len_check buf start 8;
    v ← unpack_double (py_slice buf start (start + 8));
    OK (v, 8)
  else if serial_type =? 8 then OK (VInt 0, 0)
  else if serial_type =? 9 then OK (VInt 1, 0)
  else if (serial_type =? 10) || (serial_type =? 11) then
    Err (SqliteParseError ReservedSerialType)
  else if Z.land serial_type 1 =? 0 then
    let l := (serial_type - 13) / 2 in
    _ ← len_check buf start l;
    OK (VStr (py_slice buf start (start + l)), l)
  else if Z.land serial_type 1 =? 1 then
    let l := (serial_type - 13) / 2 in
    _ ← len_check buf start l;
    OK (VStr (py_slice buf start (start + l)), l)
  else Err AssertionError.

(** ** Records *)

(** The [while i < header_start + header_len] loop of [parse_record],
    with [stop = header_start + header_len]. Every successful
    [parse_varint] advances [i], which bounds the number of iterations. *)
Equations? read_serial_types (buf : list byte) (i stop : Z)
    (serial_types : list Z) : result (Z * list Z)
    by wf (Z.to_nat (stop - i)) lt :=
  read_serial_types buf i stop serial_types with Z_lt_dec i stop := {
    | right _ => OK (i, serial_types)
    | left _ with inspect (parse_varint buf i) := {
      | exist _ (Err e) _ => Err e
      | exist _ (OK (stype, l)) Hv =>
          read_serial_types buf (i + l) stop (serial_types ++ [stype]) } }.
Proof.
  revert Hv. unfold parse_varint, mbind, result_bind.
  destruct (parse_varint_loop 9 buf i 0 []) as [[bits k]|]; [|discriminate].
  destruct (twos_comp (int_of_bits bits) 64); [|discriminate].
  intros [= _ <-]. lia.
Qed.

(** One element of a type set: an integer serial type or a string such as
    ["string"] or ["blob"]. A type set is a [gset (Z + string)]; an entry
    of [type_sets] is [None] or a type set. *)

(** The [for n, (serial_type, type_set) in enumerate(zip(...))] loop of
    [parse_record]. The [raise] of this loop formats its message with the
    name [expected_type], which is bound nowhere: evaluating it raises
    [NameError]. *)
Fixpoint check_type_sets (serial_types : list Z)
    (type_sets : list (option (gset (Z + string)))) : result unit :=
  match serial_types, type_sets with
  | serial_type :: sts, type_set :: tss =>
    match type_set with
    | None => check_type_sets sts tss
    | Some type_set =>
      if bool_decide (inr "string" ∈ type_set) && (13 <=? serial_type)
         && (Z.land serial_type 1 =? 0)
      then check_type_sets sts tss
      else if bool_decide (inr "blob" ∈ type_set) && (12 <=? serial_type)
              && (Z.land serial_type 1 =? 1)
      then check_type_sets sts tss
      else if negb (bool_decide (inl serial_type ∈ type_set))
      then Err NameError
      else check_type_sets sts tss
    end
  | _, _ => OK tt
  end.

(** The [for stype in serial_types] loop of [parse_record]. *)
Fixpoint parse_columns (buf : list byte) (serial_types : list Z) (i : Z)
    (values : list value) : result (Z * list value) :=
  match serial_types with
  | [] => OK (i, values)
  | stype :: rest =>
    '(value, l) ← parse_column stype buf i;
    parse_columns buf rest (i + l) (values ++ [value])
  end.

(** [parse_record] up to and including the column-count check: the
    payload length, the header start, the offset after the header and the
    serial types. *)
Definition parse_header (buf : list byte) (start : Z) (n_cols : option Z)
    : result (Z * Z * Z * list Z) :=
  let i := start in
  b ← py_index buf i;
  if ord b =? 13 then Err (SqliteParseError MissingMarker) else
  let i := i + 1 in
  '(payload_len, l) ← parse_varint buf i;
  let i := i + l in
  '(row_id, l) ← parse_varint buf i;
  let i := i + l in
  let header_start := i in
  '(header_len, l) ← parse_varint buf i;
  let i := i + l in
  if header_len <? 2 then Err (SqliteParseError HeaderTooShort) else
  _ ← match n_cols with
      | None => OK tt
      | Some n_cols =>
        let max_header_len := 9 * (1 + n_cols) in
        let min_header_len := 1 * (1 + n_cols) in
        if max_header_len <? header_len then
          Err (SqliteParseError (HeaderLengthOutOfRange true))
        else if header_len <? min_header_len then
          Err (SqliteParseError (HeaderLengthOutOfRange false))
        else OK tt
      end;
  '(i, serial_types) ← read_serial_types buf i (header_start + header_len) [];
  if negb (i =? header_start + header_len) then
    Err (SqliteParseError HeaderLengthMismatch) else
  match n_cols with
  | Some n_cols =>
    if negb (len serial_types =? n_cols) then
      Err (SqliteParseError ColumnCountMismatch)
    else OK (payload_len, header_start, i, serial_types)
  | None => OK (payload_len, header_start, i, serial_types)
  end.

(** [parse_record(buf, start, n_cols, type_sets)] *)
Definition parse_record (buf : list byte) (start : Z) (n_cols : option Z)
    (type_sets : option (list (option (gset (Z + string)))))
    : result (list Z * list value) :=
  '(payload_len, header_start, i, serial_types) ←
    parse_header buf start n_cols;
  _ ← match type_sets with
      | None => OK tt
      | Some type_sets => check_type_sets serial_types type_sets
      end;
  '(i, values) ← parse_columns buf serial_types i [];
  let actual_payload_len := i - header_start in
  if negb (actual_payload_len =? payload_len) then
    Err (SqliteParseError PayloadLengthMismatch)
  else OK (serial_types, values).

(** ** Backward scan *)

(** The [for j in range(8)] loop of [count_varints]; [k] counts the
    values of the range still to come. Returns [pos] and the last value
    of [j]. *)
Fixpoint scan_back (k : nat) (buf : list byte) (pos : Z) (j : nat)
    : result (Z * nat) :=
  match k with
  | O => OK (pos, Nat.pred j)
  | S k' =>
    b ← py_index buf (pos - 1);
    if negb (Z.land (ord b) 128 =? 128) then OK (pos, j)
    else scan_back k' buf (pos - 1) (S j)
  end.

(** The [for i in range(n)] loop of [count_varints]. *)
Fixpoint count_varints_loop (n : nat) (buf : list byte) (pos : Z)
    : result Z :=
  match n with
  | O => OK pos
  | S n' =>
    let pos := pos - 1 in
    b ← py_index buf pos;
    let nine_byte := negb (Z.land (ord b) 128 =? 0) in
    '(pos, j) ← scan_back 8 buf pos 0;
    if nine_byte && negb (Z.of_nat j + 1 =? 9) then
      Err (SqliteParseError MalformedVarint)
    else count_varints_loop n' buf pos
  end.

(** [count_varints(buf, start, n, backward)] *)
Definition count_varints (buf : list byte) (start n : Z) (backward : bool)
    : result Z :=
  if negb (0 <? n) then Err AssertionError
  else if negb backward then Err NotImplementedError
  else count_varints_loop (Z.to_nat n) buf start.

(** ** A sample record *)

(** A cell with payload length 3, row id 0, header length 2 and one
    column of serial type 15 holding the one-character text "a". Its
    first byte is 0x00: [parse_record] refuses the marker byte 0x0d. *)
Definition sample_record : list byte := [x00; x03; x00; x02; x0f; x61].

(** * Properties *)

Ltac unfold_bind := unfold mbind, mret, result_bind, result_ret.

(** ** Varint decoding *)

Lemma parse_varint_loop_index k buf start i bits bits' i' :
  parse_varint_loop k buf start i bits = OK (bits', i') →
  (0 < k)%nat → (i <= i' < i + k)%nat.
Proof.
  revert i bits. induction k as [|k IH]; intros i bits H Hk; [lia|].
  cbn [parse_varint_loop] in H.
  destruct (len buf <=? start + Z.of_nat i); [discriminate|].
  revert H. unfold_bind.
  destruct (py_index buf (start + Z.of_nat i)) as [b|]; [|discriminate].
  destruct (negb (Z.land (ord b) 128 =? 128)).
  - intros [= _ <-]. lia.
  - destruct k as [|k'].
    + cbn [parse_varint_loop]. intros [= _ <-]. simpl. lia.
    + intros H. apply IH in H; lia.
Qed.

(** A varint that decodes takes between 1 and 9 bytes. *)
Lemma parse_varint_width buf start v w :
  parse_varint buf start = OK (v, w) → 1 <= w <= 9.
Proof.
  unfold parse_varint. unfold_bind.
  destruct (parse_varint_loop 9 buf start 0 []) as [[bits i]|] eqn:E;
    [|discriminate].
  apply parse_varint_loop_index in E; [|lia].
  destruct (twos_comp (int_of_bits bits) 64); [|discriminate].
  intros [= _ <-]. lia.
Qed.

(** C6: the ninth byte of a varint contributes nine bits, not eight, so
    a nine-byte varint is not decoded as the 64-bit two's-complement
    integer of 8 x 7 + 8 bits: nine bytes 0xff give -257 instead of -1,
    and 0x81 followed by seven 0x80 and a 0x00 gives 2^58 instead of
    2^57 (an eight-byte varint with the same first bytes is right). *)
Theorem parse_varint_ninth_byte_nine_bits :
  parse_varint [xff; xff; xff; xff; xff; xff; xff; xff; xff] 0
    = OK (-257, 9) ∧
  parse_varint [x81; x80; x80; x80; x80; x80; x80; x80; x00] 0
    = OK (2 ^ 58, 9) ∧
  parse_varint [x81; x80; x80; x80; x80; x80; x80; x00] 0
    = OK (2 ^ 49, 8).
Proof. repeat split; vm_compute; reflexivity. Qed.

(** ** Varint encoding *)

Lemma pos_bits_bound p : Z.pos p < 2 ^ len (pos_bits p).
Proof.
  unfold len. induction p as [p IH|p IH|]; cbn [pos_bits].
  - rewrite length_app, Nat2Z.inj_add, Z.pow_add_r by lia.
    change (2 ^ Z.of_nat (length [1])) with 2. lia.
  - rewrite length_app, Nat2Z.inj_add, Z.pow_add_r by lia.
    change (2 ^ Z.of_nat (length [0])) with 2. lia.
  - reflexivity.
Qed.

Lemma bin_digits_long v : 128 <= v → (7 <? len (bin_digits v)) = true.
Proof.
  intros Hv. apply Z.ltb_lt.
  destruct v as [|p|p]; try lia. cbn [bin_digits].
  pose proof (pos_bits_bound p) as Hb.
  destruct (Z_lt_dec 7 (len (pos_bits p))) as [|Hn]; [assumption|].
  assert (2 ^ len (pos_bits p) <= 2 ^ 7) by (apply Z.pow_le_mono_r; lia).
  change (2 ^ 7) with 128 in *. lia.
Qed.

Lemma roundtrip_ok_small :
  forallb roundtrip_ok (Z.of_nat <$> seq 0 128) = true.
Proof. vm_compute. reflexivity. Qed.

Lemma roundtrip_ok_spec v :
  roundtrip_ok v = true →
  ∃ b, encode_varint v = OK [b] ∧ ord b = v ∧ parse_varint [b] 0 = OK (v, 1).
Proof.
  unfold roundtrip_ok.
  destruct (encode_varint v) as [[|b [|]]|]; try discriminate.
  destruct (parse_varint [b] 0) as [[v' w]|] eqn:Hp;
    rewrite ?andb_false_r; try discriminate.
  intros H. apply andb_true_iff in H as [H1 H2].
  apply andb_true_iff in H2 as [H2 H3].
  apply Z.eqb_eq in H1, H2, H3. subst v' w. exists b. auto.
Qed.

(** C2, as the code has it: [encode_varint] encodes exactly the values
    0 to 127, each to the single byte of that value, which
    [parse_varint] decodes back with width 1 (the least width a varint
    has); every other 64-bit value is refused with
    [NotImplementedError]. *)
Theorem encode_varint_single_byte_roundtrip v :
  - 2 ^ 63 <= v < 2 ^ 63 →
  (0 <= v < 128 →
   ∃ b, encode_varint v = OK [b] ∧ ord b = v ∧
        parse_varint [b] 0 = OK (v, 1)) ∧
  (¬ 0 <= v < 128 → encode_varint v = Err NotImplementedError).
Proof.
  intros Hr. split.
  - intros Hv. apply roundtrip_ok_spec.
    pose proof roundtrip_ok_small as Hall.
    rewrite forallb_forall in Hall. apply Hall.
    apply in_map_iff. exists (Z.to_nat v). split; [lia|].
    apply in_seq. lia.
  - intros Hv. unfold encode_varint, encode_twos_comp_bits. unfold_bind.
    destruct (v <? 0) eqn:Hneg; [reflexivity|].
    apply Z.ltb_ge in Hneg.
    change (Z.shiftl 1 (64 - 1)) with (2 ^ 63).
    destruct (2 ^ 63 <=? v) eqn:Hbig; [apply Z.leb_le in Hbig; lia|].
    rewrite bin_digits_long by lia. reflexivity.
Qed.

Lemma encode_varint_single_byte_roundtrip_witness :
  - 2 ^ 63 <= 42 < 2 ^ 63 ∧
  ((0 <= 42 < 128 →
    ∃ b, encode_varint 42 = OK [b] ∧ ord b = 42 ∧
         parse_varint [b] 0 = OK (42, 1)) ∧
   (¬ 0 <= 42 < 128 → encode_varint 42 = Err NotImplementedError)).
Proof.
  split; [lia|].
  apply (encode_varint_single_byte_roundtrip 42). lia.
Defined.

(** C2 fails as stated: [encode_varint] does not succeed on every 64-bit
    signed integer; it refuses -1. *)
Lemma encode_varint_not_total :
  ¬ (∀ v, - 2 ^ 63 <= v < 2 ^ 63 →
       ∃ bs w, encode_varint v = OK bs ∧ parse_varint bs 0 = OK (v, w)).
Proof.
  intros H. destruct (H (-1)) as (bs & w & He & _); [lia|].
  vm_compute in He. discriminate.
Qed.

(** ** Column decoding *)

(** C3: [parse_twos_comp_bytes] weighs byte [i] (counted from the least
    significant) by [i**256], not [256**i], so the lowest byte is
    multiplied by 0: every one-byte integer column decodes to 0 (0x2a does
    not give 42), the two bytes 0x01 0x00 decode to 1 and not 256, and
    the record with the single column 0x2a of serial type 1 parses to
    the value 0. *)
Theorem parse_column_int_weights_wrong :
  (∀ b : byte, parse_column 1 [b] 0 = OK (VInt 0, 1)) ∧
  parse_column 1 [x2a] 0 = OK (VInt 0, 1) ∧
  parse_column 2 [x01; x00] 0 = OK (VInt 1, 2) ∧
  parse_record [x00; x03; x00; x02; x01; x2a] 0 None None
    = OK ([1], [VInt 0]).
Proof.
  split; [|repeat split; vm_compute; reflexivity].
  intros b. destruct b; vm_compute; reflexivity.
Qed.

Lemma land_1_even n : Z.even n = true → Z.land n 1 = 0.
Proof.
  intros H. change 1 with (Z.ones 1). rewrite Z.land_ones by lia.
  apply Zeven_bool_iff, Zeven_ex_iff in H as [m ->].
  change (2 ^ 1) with 2. rewrite Z.mul_comm. apply Z.mod_mul. lia.
Qed.

(** Whatever an even serial type from 12 on decodes to, its width is one
    less than the blob length (N-12)/2. *)
Lemma parse_column_even_width n buf start v w :
  12 <= n → Z.even n = true →
  parse_column n buf start = OK (v, w) → w = (n - 12) / 2 - 1.
Proof.
  intros Hn He. unfold parse_column.
  repeat match goal with
  | |- context [n =? ?c] =>
    let H := fresh in
    destruct (Z.eqb_spec n c) as [H|_]; [lia|]
  end.
  cbn [orb]. rewrite (land_1_even n He). cbn [Z.eqb]. unfold_bind.
  destruct (len_check buf start ((n - 13) / 2)); [|discriminate].
  intros [= _ <-].
  apply Zeven_bool_iff, Zeven_ex_iff in He as [m ->].
  replace (2 * m - 13) with (1 + (m - 7) * 2) by lia.
  replace (2 * m - 12) with ((m - 6) * 2) by lia.
  rewrite Z.div_add, Z.div_mul by lia.
  change (1 / 2) with 0. lia.
Qed.

(** C5: the even branch of [parse_column] computes the length as
    [(serial_type - 13) / 2], the formula of the odd branch. With one
    byte 0xaa left, serial type 14 gives the empty string and width 0
    instead of that byte and width 1; with no byte left it does not fail;
    serial type 12 gives width -1; serial type 16 gives one byte of the
    two. *)
Theorem parse_column_blob_length_short :
  parse_column 14 [xaa] 0 = OK (VStr [], 0) ∧
  parse_column 14 [] 0 = OK (VStr [], 0) ∧
  parse_column 12 [xaa] 0 = OK (VStr [], -1) ∧
  parse_column 16 [xaa; xbb] 0 = OK (VStr [xaa], 1).
Proof. repeat split; vm_compute; reflexivity. Qed.

(** ** Record parsing *)

Lemma py_index_head b rest : py_index (b :: rest) 0 = OK b.
Proof.
  unfold py_index, len. cbn [Z.ltb Z.compare orb length].
  destruct (Z.leb_spec (Z.of_nat (S (length rest))) 0) as [H|_]; [lia|].
  reflexivity.
Qed.

(** C1: the marker test is inverted. A cell that starts with 0x0d is
    always refused with the missing-marker error, whatever follows and
    whatever the options; a well-formed cell whose first byte is 0x00
    instead of the marker is parsed. *)
Theorem parse_record_marker_inverted :
  (∀ rest n_cols type_sets,
     parse_record (x0d :: rest) 0 n_cols type_sets
       = Err (SqliteParseError MissingMarker)) ∧
  parse_record [x0d; x02; x00; x02; x08] 0 None None
    = Err (SqliteParseError MissingMarker) ∧
  parse_record [x00; x02; x00; x02; x08] 0 None None
    = OK ([8], [VInt 0]).
Proof.
  split; [|split; vm_compute; reflexivity].
  intros rest n_cols type_sets.
  unfold parse_record, parse_header. rewrite py_index_head. reflexivity.
Qed.

(** The type-set check never ends in a [SqliteParseError]. *)
Lemma check_type_sets_no_parse_error sts ts r :
  check_type_sets sts ts ≠ Err (SqliteParseError r).
Proof.
  revert ts. induction sts as [|st sts IH]; intros [|[t|] ts];
    cbn [check_type_sets]; try discriminate; try apply IH.
  repeat match goal with
  | |- context [if ?c then _ else _] => destruct c
  end; try apply IH; discriminate.
Qed.

(** C4: the parities of the ["string"] and ["blob"] tests are swapped
    with respect to [parse_column], and the [raise] of the check fails
    with [NameError]. With the type set {"string"}, the odd (text) serial
    type 15 is refused, the even (blob) serial type 14 is accepted, and
    the refusal of 12 is a [NameError], not a [SqliteParseError]; the
    same at the level of [parse_record]. *)
Theorem check_type_sets_parity_swapped :
  check_type_sets [15] [Some {[ inr "string" ]}] = Err NameError ∧
  check_type_sets [14] [Some {[ inr "string" ]}] = OK tt ∧
  check_type_sets [12] [Some {[ inr "string" ]}] = Err NameError ∧
  check_type_sets [13] [Some {[ inr "blob" ]}] = OK tt ∧
  parse_record sample_record 0 None
    (Some [Some {[ inr "string" ]}]) = Err NameError ∧
  parse_record sample_record 0 None None
    = OK ([15], [VStr [x61]]) ∧
  parse_record [x00; x02; x00; x02; x0c] 0 None
    (Some [Some {[ inr "string" ]}]) = Err NameError.
Proof. repeat split; vm_compute; reflexivity. Qed.

(** C7: [parse_record] indexes the buffer at [start] without a bounds
    check, so an offset at or past the end of the buffer (or an empty
    buffer) ends in [IndexError]; a type-set mismatch ends in
    [NameError]. Neither is a [SqliteParseError]. *)
Theorem parse_record_other_exceptions :
  parse_record [] 0 None None = Err IndexError ∧
  parse_record [x00; x02; x00; x02; x08] 5 None None = Err IndexError ∧
  parse_record [x00; x02; x00; x02; x08] 6 None None = Err IndexError ∧
  parse_record [x00; x02; x00; x02; x08] 0 None
    (Some [Some {[ inl 1 ]}]) = Err NameError.
Proof. repeat split; vm_compute; reflexivity. Qed.

(** What a successful [parse_header] returns: the value of the first
    varint after the marker byte, the position of the third varint, and
    the offset at which the declared header ends. *)
Lemma parse_header_fields buf start n_cols payload_len header_start i sts :
  parse_header buf start n_cols = OK (payload_len, header_start, i, sts) →
  ∃ w1 row_id w2 header_len w3,
    parse_varint buf (start + 1) = OK (payload_len, w1) ∧
    parse_varint buf (start + 1 + w1) = OK (row_id, w2) ∧
    header_start = start + 1 + w1 + w2 ∧
    parse_varint buf header_start = OK (header_len, w3) ∧
    i = header_start + header_len.
Proof.
  unfold parse_header. unfold_bind.
  destruct (py_index buf start) as [b|]; [|discriminate].
  destruct (ord b =? 13); [discriminate|].
  destruct (parse_varint buf (start + 1)) as [[pl w1]|]; [|discriminate].
  destruct (parse_varint buf (start + 1 + w1)) as [[rid w2]|] eqn:E2;
    [|discriminate].
  destruct (parse_varint buf (start + 1 + w1 + w2)) as [[hl w3]|] eqn:E3;
    [|discriminate].
  destruct (hl <? 2); [discriminate|].
  match goal with
  | |- context [match ?c with OK _ => _ | Err _ => _ end = _] =>
    destruct c; [|discriminate]
  end.
  destruct (read_serial_types _ _ _ _) as [[i' sts']|]; [|discriminate].
  destruct (Z.eqb_spec i' (start + 1 + w1 + w2 + hl)) as [->|];
    [|discriminate].
  cbn [negb].
  assert (∀ r : result (Z * Z * Z * list Z),
    r = OK (pl, start + 1 + w1 + w2, start + 1 + w1 + w2 + hl, sts') ∨
    (∃ e, r = Err e) →
    r = OK (payload_len, header_start, i, sts) →
    ∃ w1' row_id w2' header_len w3',
      OK (pl, w1) = OK (payload_len, w1') ∧
      parse_varint buf (start + 1 + w1') = OK (row_id, w2') ∧
      header_start = start + 1 + w1' + w2' ∧
      parse_varint buf header_start = OK (header_len, w3') ∧
      i = header_start + header_len) as Hfin.
  { intros r [->|[e ->]]; [|discriminate].
    intros [= <- <- <- <-]. exists w1, rid, w2, hl, w3. auto. }
  apply Hfin. destruct n_cols as [n|]; [|auto].
  destruct (negb _); eauto.
Qed.

(** C8: once the header, the type check and the columns have gone
    through, [parse_record] returns the record exactly when the offset
    after the last column minus the header start equals the value of the
    payload-length varint (the first varint after the marker byte), and
    fails with the payload-length mismatch error otherwise. *)
Theorem parse_record_payload_check buf start n_cols type_sets
    payload_len header_start i sts final values :
  parse_header buf start n_cols = OK (payload_len, header_start, i, sts) →
  match type_sets with
  | None => OK tt
  | Some ts => check_type_sets sts ts
  end = OK tt →
  parse_columns buf sts i [] = OK (final, values) →
  (∃ w1, parse_varint buf (start + 1) = OK (payload_len, w1)) ∧
  ((∃ r, parse_record buf start n_cols type_sets = OK r) ↔
   final - header_start = payload_len) ∧
  (final - header_start = payload_len →
   parse_record buf start n_cols type_sets = OK (sts, values)) ∧
  (final - header_start ≠ payload_len →
   parse_record buf start n_cols type_sets
     = Err (SqliteParseError PayloadLengthMismatch)).
Proof.
  intros Hh Ht Hc.
  split.
  { apply parse_header_fields in Hh as (w1 & _ & _ & _ & _ & H & _).
    eauto. }
  unfold parse_record. rewrite Hh. unfold_bind. cbn beta iota.
  rewrite Ht, Hc. cbn beta iota zeta.
  destruct (Z.eqb_spec (final - header_start) payload_len) as [Heq|Hne];
    cbn [negb].
  - repeat split; eauto. intros; contradiction.
  - repeat split; try (intros; contradiction).
    intros [r Hr]. discriminate.
Qed.

Lemma parse_record_payload_check_witness :
  parse_header sample_record 0 (Some 1) = OK (3, 3, 5, [15]) ∧
  check_type_sets [15] [Some {[ inl 15 ]}] = OK tt ∧
  parse_columns sample_record [15] 5 [] = OK (6, [VStr [x61]]) ∧
  (∃ w1, parse_varint sample_record (0 + 1) = OK (3, w1)) ∧
  ((∃ r, parse_record sample_record 0 (Some 1)
           (Some [Some {[ inl 15 ]}]) = OK r) ↔ 6 - 3 = 3) ∧
  (6 - 3 = 3 →
   parse_record sample_record 0 (Some 1) (Some [Some {[ inl 15 ]}])
     = OK ([15], [VStr [x61]])) ∧
  (6 - 3 ≠ 3 →
   parse_record sample_record 0 (Some 1) (Some [Some {[ inl 15 ]}])
     = Err (SqliteParseError PayloadLengthMismatch)).
Proof.
  assert (H1 : parse_header sample_record 0 (Some 1) = OK (3, 3, 5, [15]))
    by (vm_compute; reflexivity).
  assert (H2 : check_type_sets [15] [Some {[ inl 15 ]}] = OK tt)
    by (vm_compute; reflexivity).
  assert (H3 : parse_columns sample_record [15] 5 [] = OK (6, [VStr [x61]]))
    by (vm_compute; reflexivity).
  split; [exact H1|]. split; [exact H2|]. split; [exact H3|].
  exact (parse_record_payload_check sample_record 0 (Some 1)
           (Some [Some {[ inl 15 ]}]) 3 3 5 [15] 6 [VStr [x61]] H1 H2 H3).
Defined.

Lemma check_type_sets_take sts ts :
  check_type_sets sts (take (length sts) ts) = check_type_sets sts ts.
Proof.
  revert ts. induction sts as [|st sts IH]; intros [|t ts]; try reflexivity.
  cbn [length take check_type_sets]. rewrite IH. reflexivity.
Qed.

(** C10: when [type_sets] has more entries than the record has columns,
    the entries beyond the column count are ignored: the outcome of
    [parse_record] is that of the call with [type_sets] cut to the number
    of columns. *)
Theorem parse_record_extra_type_sets_ignored buf start n_cols ts
    payload_len header_start i sts :
  parse_header buf start n_cols = OK (payload_len, header_start, i, sts) →
  (length sts < length ts)%nat →
  parse_record buf start n_cols (Some ts)
    = parse_record buf start n_cols (Some (take (length sts) ts)).
Proof.
  intros Hh _. unfold parse_record. rewrite Hh. unfold_bind. cbn beta iota.
  rewrite check_type_sets_take. reflexivity.
Qed.

Lemma parse_record_extra_type_sets_ignored_witness :
  parse_header sample_record 0 None = OK (3, 3, 5, [15]) ∧
  (length [15] <
   length [Some {[ inl 15%Z ]}; Some {[ inr "blob" ]};
           @None (gset (Z + string))])%nat ∧
  parse_record sample_record 0 None
    (Some [Some {[ inl 15 ]}; Some {[ inr "blob" ]}; None])
  = parse_record sample_record 0 None
      (Some (take (length [15])
               [Some {[ inl 15 ]}; Some {[ inr "blob" ]}; None])).
Proof.
  assert (H1 : parse_header sample_record 0 None = OK (3, 3, 5, [15]))
    by (vm_compute; reflexivity).
  split; [exact H1|]. split; [simpl; lia|].
  apply (parse_record_extra_type_sets_ignored sample_record 0 None
           [Some {[ inl 15 ]}; Some {[ inr "blob" ]}; None] 3 3 5 [15] H1).
  simpl. lia.
Defined.

(** ** Backward scan *)

Lemma scan_back_index k buf pos j pos' j' :
  scan_back k buf pos j = OK (pos', j') →
  (0 < k)%nat → (j' < j + k)%nat.
Proof.
  revert pos j. induction k as [|k IH]; intros pos j H Hk; [lia|].
  cbn [scan_back] in H. revert H. unfold_bind.
  destruct (py_index buf (pos - 1)) as [b|]; [|discriminate].
  destruct (negb (Z.land (ord b) 128 =? 128)).
  - intros [= _ <-]. lia.
  - destruct k as [|k'].
    + cbn [scan_back]. intros [= _ <-]. simpl. lia.
    + intros H. apply IH in H; lia.
Qed.

(** A varint whose last byte has the 0x80 bit set is never accepted,
    however many bytes it spans. *)
Lemma count_varints_high_bit_never_ok buf start n b p :
  0 < n → py_index buf (start - 1) = OK b →
  Z.land (ord b) 128 ≠ 0 →
  count_varints buf start n true ≠ OK p.
Proof.
  intros Hn Hb Hbit. unfold count_varints.
  destruct (Z.ltb_spec 0 n) as [_|]; [|lia]. cbn [negb].
  destruct (Z.to_nat n) as [|m] eqn:Em; [lia|].
  cbn [count_varints_loop]. rewrite Hb. unfold_bind. cbn beta iota zeta.
  destruct (scan_back 8 buf (start - 1) 0) as [[pos j]|] eqn:Es;
    [|discriminate].
  apply scan_back_index in Es; [|lia].
  destruct (Z.eqb_spec (Z.land (ord b) 128) 0) as [|_]; [contradiction|].
  destruct (Z.eqb_spec (Z.of_nat j + 1) 9) as [|_]; [lia|].
  discriminate.
Qed.

(** C9: the span test compares [j+1] with 9, and [j] never exceeds 7, so
    every varint whose last byte has the 0x80 bit set is refused, the
    well-formed nine-byte ones too: on nine 0xff bytes after a 0x00 the
    scan fails instead of returning position 1. A nine-byte varint is
    located only when its last byte happens to lack the bit. *)
Theorem count_varints_nine_byte_refused :
  count_varints [x00; xff; xff; xff; xff; xff; xff; xff; xff; xff] 10 1 true
    = Err (SqliteParseError MalformedVarint) ∧
  count_varints [x00; x81; x80; x80; x80; x80; x80; x80; x80; x80] 10 1 true
    = Err (SqliteParseError MalformedVarint) ∧
  count_varints [x00; x81; x80; x80; x80; x80; x80; x80; x80; x01] 10 1 true
    = OK 1 ∧
  count_varints [x00; x05] 2 1 true = OK 1.
Proof. repeat split; vm_compute; reflexivity. Qed.

(** * Further properties *)


(** ** Two's complement *)

Lemma twos_comp_value uint n_bits :
  0 < n_bits → 0 <= uint < 2 ^ n_bits →
  twos_comp uint n_bits
    = OK (if uint <? 2 ^ (n_bits - 1) then uint else uint - 2 ^ n_bits).
Proof.
  intros Hn Hu. unfold twos_comp.
  destruct (Z.ltb_spec (n_bits - 1) 0) as [|_]; [lia|].
  rewrite Z.shiftr_div_pow2 by lia.
  assert (Hp : 0 < 2 ^ (n_bits - 1)) by (apply Z.pow_pos_nonneg; lia).
  assert (H2 : 2 ^ n_bits = 2 * 2 ^ (n_bits - 1)).
  { replace n_bits with (Z.succ (n_bits - 1)) at 1 by lia.
    apply Z.pow_succ_r. lia. }
  destruct (Z.ltb_spec uint (2 ^ (n_bits - 1))) as [Hlt|Hge].
  - rewrite Z.div_small by lia. reflexivity.
  - assert (0 < uint / 2 ^ (n_bits - 1)) by (apply Z.div_str_pos; lia).
    destruct (Z.eqb_spec (uint / 2 ^ (n_bits - 1)) 0) as [|_]; [lia|].
    cbn [negb]. f_equal.
    rewrite Z.shiftl_1_l. replace (2 ^ n_bits - 1) with (Z.ones n_bits)
      by (rewrite Z.ones_equiv; lia).
    rewrite Z.land_ones by lia.
    replace (Z.lnot (uint - 1)) with (- uint) by (unfold Z.lnot; lia).
    rewrite <- (Z.mod_unique (- uint) (2 ^ n_bits) (-1) (2 ^ n_bits - uint));
      lia.
Qed.

(** X1: for a positive bit width and an unsigned value that fits in it,
    [twos_comp] returns the one signed value of that width congruent to
    the unsigned value modulo 2^n_bits. *)
Theorem twos_comp_correct uint n_bits :
  0 < n_bits → 0 <= uint < 2 ^ n_bits →
  ∃ v, twos_comp uint n_bits = OK v ∧
       - 2 ^ (n_bits - 1) <= v < 2 ^ (n_bits - 1) ∧
       v mod 2 ^ n_bits = uint.
Proof.
  intros Hn Hu. rewrite twos_comp_value by assumption.
  assert (H2 : 2 ^ n_bits = 2 * 2 ^ (n_bits - 1)).
  { replace n_bits with (Z.succ (n_bits - 1)) at 1 by lia.
    apply Z.pow_succ_r. lia. }
  eexists. split; [reflexivity|].
  destruct (Z.ltb_spec uint (2 ^ (n_bits - 1))) as [Hlt|Hge].
  - split; [lia|]. apply Z.mod_small. lia.
  - split; [lia|]. symmetry.
    apply (Z.mod_unique (uint - 2 ^ n_bits) (2 ^ n_bits) (-1) uint); lia.
Qed.

Lemma twos_comp_correct_witness :
  0 < 8 ∧ 0 <= 255 < 2 ^ 8 ∧
  ∃ v, twos_comp 255 8 = OK v ∧
       - 2 ^ (8 - 1) <= v < 2 ^ (8 - 1) ∧ v mod 2 ^ 8 = 255.
Proof.
  split; [lia|]. split; [lia|]. apply (twos_comp_correct 255 8); lia.
Defined.

(** ** Varint decoding: bounds, errors and values *)

Lemma py_index_in_range buf j :
  0 <= j < len buf → ∃ b, buf !! Z.to_nat j = Some b ∧ py_index buf j = OK b.
Proof.
  intros Hj. unfold py_index.
  destruct (Z.ltb_spec j 0) as [|_]; [lia|]. cbn iota zeta.
  destruct (Z.ltb_spec j 0) as [|_]; [lia|].
  destruct (Z.leb_spec (len buf) j) as [|_]; [lia|]. cbn [orb].
  destruct (buf !! Z.to_nat j) as [b|] eqn:E; [exists b; split; reflexivity|].
  apply lookup_ge_None in E. unfold len in Hj. lia.
Qed.

Lemma parse_varint_loop_bounds k buf start i bits bits' i' :
  parse_varint_loop k buf start i bits = OK (bits', i') →
  (0 < k)%nat → start + Z.of_nat i' < len buf.
Proof.
  revert i bits. induction k as [|k IH]; intros i bits H Hk; [lia|].
  cbn [parse_varint_loop] in H.
  destruct (Z.leb_spec (len buf) (start + Z.of_nat i)) as [|Hlt];
    [discriminate|].
  revert H. unfold_bind.
  destruct (py_index buf (start + Z.of_nat i)) as [b|]; [|discriminate].
  destruct (negb (Z.land (ord b) 128 =? 128)).
  - intros [= _ <-]. lia.
  - destruct k as [|k'].
    + cbn [parse_varint_loop]. intros [= _ <-]. simpl. lia.
    + intros H. apply IH in H; lia.
Qed.

Lemma parse_varint_fits buf start v w :
  parse_varint buf start = OK (v, w) →
  1 <= w <= 9 ∧ start + w <= len buf.
Proof.
  unfold parse_varint. unfold_bind.
  destruct (parse_varint_loop 9 buf start 0 []) as [[bits i]|] eqn:E;
    [|discriminate].
  pose proof (parse_varint_loop_index _ _ _ _ _ _ _ E ltac:(lia)).
  pose proof (parse_varint_loop_bounds _ _ _ _ _ _ _ E ltac:(lia)).
  destruct (twos_comp (int_of_bits bits) 64); [|discriminate].
  intros [= _ <-]. lia.
Qed.

Lemma parse_varint_loop_bits k buf start : ∀ i bits bits' i',
  Forall (fun b => 0 <= b) bits →
  parse_varint_loop k buf start i bits = OK (bits', i') →
  Forall (fun b => 0 <= b) bits'.
Proof.
  induction k as [|k IH]; intros i bits bits' i' Hb;
    cbn [parse_varint_loop].
  - intros [= <- _]. exact Hb.
  - destruct (len buf <=? start + Z.of_nat i); [discriminate|].
    unfold_bind.
    destruct (py_index buf (start + Z.of_nat i)) as [b|]; [|discriminate].
    assert (Hb' : Forall (fun b => 0 <= b)
      (bits ++ ((fun j => Z.land (Z.shiftr (ord b) j) 1) <$>
                range_down (if Nat.eqb i 8 then 8 else 6)))).
    { apply Forall_app. split; [exact Hb|]. apply Forall_fmap.
      apply Forall_forall. intros j _. cbn beta.
      apply Z.land_nonneg. right. lia. }
    destruct (negb _).
    + intros [= <- _]. exact Hb'.
    + apply IH. exact Hb'.
Qed.

Lemma fold_bits_nonneg bits :
  Forall (fun b => 0 <= b) bits →
  ∀ a, 0 <= a → 0 <= fold_left (fun acc b => 2 * acc + b) bits a.
Proof.
  induction 1 as [|b bits Hb _ IH]; intros a Ha; cbn [fold_left].
  - exact Ha.
  - apply IH. lia.
Qed.

Lemma int_of_bits_nonneg bits :
  Forall (fun b => 0 <= b) bits → 0 <= int_of_bits bits.
Proof. intros H. apply (fold_bits_nonneg bits H 0). lia. Qed.

(** X2: a varint that [parse_varint] decodes takes between 1 and 9 bytes,
    all of them before the end of the buffer, and its value lies strictly
    between -2^64 and 2^63. *)
Theorem parse_varint_in_bounds buf start v w :
  parse_varint buf start = OK (v, w) →
  1 <= w <= 9 ∧ start + w <= len buf ∧ - 2 ^ 64 < v < 2 ^ 63.
Proof.
  intros H. pose proof (parse_varint_fits _ _ _ _ H) as [Hw Hfit].
  split; [exact Hw|]. split; [exact Hfit|].
  revert H. unfold parse_varint. unfold_bind.
  destruct (parse_varint_loop 9 buf start 0 []) as [[bits i]|] eqn:E;
    [|discriminate].
  apply parse_varint_loop_bits in E; [|constructor].
  apply int_of_bits_nonneg in E. cbn beta iota zeta. unfold twos_comp.
  change (64 - 1 <? 0) with false. cbn iota.
  rewrite Z.shiftr_div_pow2 by lia.
  assert (0 < 2 ^ (64 - 1)) by reflexivity.
  destruct (Z.eqb_spec (int_of_bits bits / 2 ^ (64 - 1)) 0) as [Hz|_];
    cbn [negb].
  - intros [= <- _]. apply Z.div_small_iff in Hz; [|lia].
    change (2 ^ (64 - 1)) with (2 ^ 63) in Hz. lia.
  - intros [= <- _]. rewrite Z.shiftl_1_l.
    replace (2 ^ 64 - 1) with (Z.ones 64) by reflexivity.
    rewrite Z.land_ones by lia.
    pose proof (Z.mod_pos_bound (Z.lnot (int_of_bits bits - 1)) (2 ^ 64)
                  ltac:(reflexivity)).
    assert (0 < 2 ^ 63) by reflexivity. lia.
Qed.

Lemma parse_varint_in_bounds_witness :
  parse_varint [x00; x81; x00] 1 = OK (128, 2) ∧
  1 <= 2 <= 9 ∧ 1 + 2 <= len [x00; x81; x00] ∧ - 2 ^ 64 < 128 < 2 ^ 63.
Proof.
  assert (H : parse_varint [x00; x81; x00] 1 = OK (128, 2))
    by (vm_compute; reflexivity).
  split; [exact H|].
  exact (parse_varint_in_bounds [x00; x81; x00] 1 128 2 H).
Defined.

Lemma parse_varint_loop_error k buf start i bits e :
  0 <= start →
  parse_varint_loop k buf start i bits = Err e →
  e = SqliteParseError BufferExhausted.
Proof.
  intros Hs. revert i bits. induction k as [|k IH]; intros i bits;
    cbn [parse_varint_loop]; [discriminate|].
  destruct (Z.leb_spec (len buf) (start + Z.of_nat i)) as [|Hlt];
    [congruence|].
  destruct (py_index_in_range buf (start + Z.of_nat i)) as (b & _ & ->);
    [lia|].
  unfold_bind. destruct (negb (Z.land (ord b) 128 =? 128));
    [discriminate|]. apply IH.
Qed.

Lemma parse_varint_error_kind buf start e :
  0 <= start →
  parse_varint buf start = Err e → e = SqliteParseError BufferExhausted.
Proof.
  intros Hs. unfold parse_varint. unfold_bind.
  destruct (parse_varint_loop 9 buf start 0 []) as [[bits i]|] eqn:E.
  - unfold twos_comp. change (64 - 1 <? 0) with false. cbn iota.
    destruct (negb _); discriminate.
  - intros [= <-]. eapply parse_varint_loop_error; eauto.
Qed.

(** X3: at a non-negative offset the only failure of [parse_varint] is
    the ran-off-the-end parse error, and it does fail that way when the
    offset is at or past the end of the buffer. *)
Theorem parse_varint_errors buf start :
  0 <= start →
  (∀ e, parse_varint buf start = Err e →
        e = SqliteParseError BufferExhausted) ∧
  (len buf <= start →
   parse_varint buf start = Err (SqliteParseError BufferExhausted)).
Proof.
  intros Hs. split.
  - intros e. apply parse_varint_error_kind. exact Hs.
  - intros Hl. unfold parse_varint. cbn [parse_varint_loop].
    destruct (Z.leb_spec (len buf) (start + Z.of_nat 0)) as [_|]; [|lia].
    reflexivity.
Qed.

Lemma parse_varint_errors_witness :
  0 <= 1 ∧
  (∀ e, parse_varint [x00; x81] 1 = Err e →
        e = SqliteParseError BufferExhausted) ∧
  (len [x00; x81] <= 1 →
   parse_varint [x00; x81] 1 = Err (SqliteParseError BufferExhausted)).
Proof.
  split; [lia|]. apply (parse_varint_errors [x00; x81] 1). lia.
Defined.

Lemma fold_bits_shift l a :
  fold_left (fun acc b => 2 * acc + b) l a
  = 2 ^ len l * a + fold_left (fun acc b => 2 * acc + b) l 0.
Proof.
  unfold len. revert a. induction l as [|x l IH]; intros a.
  - cbn. lia.
  - cbn [fold_left length]. rewrite IH, (IH (2 * 0 + x)).
    rewrite Nat2Z.inj_succ, Z.pow_succ_r by lia. lia.
Qed.

Lemma int_of_bits_app a l :
  int_of_bits (a ++ l) = 2 ^ len l * int_of_bits a + int_of_bits l.
Proof.
  unfold int_of_bits. rewrite fold_left_app. apply fold_bits_shift.
Qed.

Lemma septet_value (b : byte) :
  int_of_bits ((fun j => Z.land (Z.shiftr (ord b) j) 1) <$> range_down 6)
  = Z.land (ord b) 127.
Proof. destruct b; vm_compute; reflexivity. Qed.

Lemma septet_len (f : Z → Z) : len (f <$> range_down 6) = 7.
Proof. reflexivity. Qed.

Lemma high_bit_test (b : byte) :
  (Z.land (ord b) 128 =? 128) = (128 <=? ord b).
Proof. destruct b; vm_compute; reflexivity. Qed.

Lemma py_index_middle pre x rest :
  py_index (pre ++ x :: rest) (len pre) = OK x.
Proof.
  destruct (py_index_in_range (pre ++ x :: rest) (len pre)) as (b & Hl & ->).
  - unfold len. rewrite length_app. cbn [length]. lia.
  - unfold len in Hl. rewrite Nat2Z.id in Hl.
    rewrite list_lookup_middle in Hl by reflexivity. congruence.
Qed.

Lemma base128_snoc bs b :
  base128 (bs ++ [b]) = 128 * base128 bs + Z.land (ord b) 127.
Proof. unfold base128. rewrite fold_left_app. reflexivity. Qed.

Lemma land_127_bound (b : byte) : 0 <= Z.land (ord b) 127 < 128.
Proof. destruct b; vm_compute; split; congruence. Qed.

Lemma base128_bound bs : 0 <= base128 bs < 128 ^ len bs.
Proof.
  unfold len. induction bs as [|b bs IH] using rev_ind.
  - cbn. lia.
  - rewrite base128_snoc, length_app, Nat2Z.inj_add, Z.pow_add_r by lia.
    cbn [length]. change (128 ^ Z.of_nat 1) with 128.
    pose proof (land_127_bound b). nia.
Qed.

Lemma parse_varint_loop_run pre post last cont :
  Forall (fun b => 128 <= ord b) cont → ord last < 128 →
  ∀ k done bits,
    (length done + length cont < 8)%nat → (length cont < k)%nat →
    ∃ bits',
      parse_varint_loop k (pre ++ done ++ cont ++ last :: post)
        (len pre) (length done) bits
        = OK (bits', (length done + length cont)%nat) ∧
      int_of_bits bits'
        = fold_left (fun acc b => 128 * acc + Z.land (ord b) 127)
            (cont ++ [last]) (int_of_bits bits).
Proof.
  intros Hc Hl. induction Hc as [|c cont Hhi _ IH]; intros k done bits Hd Hk.
  - destruct k as [|k]; [cbn in Hk; lia|]. cbn [parse_varint_loop app].
    assert (Hlen : len (pre ++ done ++ last :: post)
                   = len pre + Z.of_nat (length done) + 1 + len post).
    { unfold len. rewrite !length_app. cbn [length]. lia. }
    destruct (Z.leb_spec (len (pre ++ done ++ last :: post))
                (len pre + Z.of_nat (length done))) as [|_];
      [unfold len in *; lia|].
    replace (len pre + Z.of_nat (length done)) with (len (pre ++ done))
      by (unfold len; rewrite length_app; lia).
    rewrite (app_assoc pre done), py_index_middle. unfold_bind.
    rewrite high_bit_test.
    destruct (Z.leb_spec 128 (ord last)) as [|_]; [lia|]. cbn [negb].
    destruct (Nat.eqb_spec (length done) 8) as [|_]; [cbn in Hd; lia|].
    eexists. split; [f_equal; f_equal; cbn; lia|].
    rewrite int_of_bits_app, septet_value, septet_len.
    change (2 ^ 7) with 128. reflexivity.
  - destruct k as [|k]; [cbn in Hk; lia|]. cbn [parse_varint_loop].
    destruct (Z.leb_spec
                (len (pre ++ done ++ (c :: cont) ++ last :: post))
                (len pre + Z.of_nat (length done))) as [Hle|_].
    { unfold len in Hle. rewrite !length_app in Hle. cbn [length] in Hle.
      lia. }
    replace (len pre + Z.of_nat (length done)) with (len (pre ++ done))
      by (unfold len; rewrite length_app; lia).
    rewrite (app_assoc pre done). cbn [app]. rewrite py_index_middle.
    unfold_bind. rewrite high_bit_test.
    destruct (Z.leb_spec 128 (ord c)) as [_|]; [|lia]. cbn [negb].
    destruct (Nat.eqb_spec (length done) 8) as [|_]; [cbn in Hd; lia|].
    specialize (IH k (done ++ [c])
      (bits ++ ((fun j => Z.land (Z.shiftr (ord c) j) 1) <$> range_down 6))).
    rewrite length_app in IH. cbn [length] in *.
    destruct IH as (bits' & Hrun & Hval); [lia|lia|].
    rewrite <- (app_assoc pre done), <- (app_assoc done [c]) in *.
    cbn [app] in *.
    replace (S (length done)) with (length done + 1)%nat by lia.
    exists bits'. split.
    + rewrite Hrun. f_equal. f_equal. lia.
    + rewrite Hval, int_of_bits_app, septet_value, septet_len.
      change (2 ^ 7) with 128. reflexivity.
Qed.

Lemma parse_varint_value pre cont last post :
  Forall (fun b => 128 <= ord b) cont → ord last < 128 →
  (length cont <= 7)%nat →
  parse_varint (pre ++ cont ++ last :: post) (len pre)
    = OK (base128 (cont ++ [last]), len cont + 1).
Proof.
  intros Hc Hl Hn.
  destruct (parse_varint_loop_run pre post last cont Hc Hl 9%nat [] [])
    as (bits' & Hrun & Hval); [cbn; lia|lia|].
  cbn [app length] in Hrun. unfold parse_varint. rewrite Hrun.
  unfold_bind. cbn beta iota zeta.
  change (int_of_bits []) with 0 in Hval. fold (base128 (cont ++ [last])) in Hval.
  rewrite Hval.
  pose proof (base128_bound (cont ++ [last])) as Hb.
  assert (128 ^ len (cont ++ [last]) <= 128 ^ 8).
  { apply Z.pow_le_mono_r; [lia|]. unfold len. rewrite length_app.
    cbn [length]. lia. }
  rewrite twos_comp_value; [| lia |].
  - destruct (Z.ltb_spec (base128 (cont ++ [last])) (2 ^ (64 - 1))) as [_|Hge].
    + reflexivity.
    + change (128 ^ 8) with (2 ^ 56) in *.
      assert (2 ^ 56 < 2 ^ (64 - 1)) by (vm_compute; reflexivity). lia.
  - change (128 ^ 8) with (2 ^ 56) in *.
    assert (2 ^ 56 < 2 ^ 64) by (vm_compute; reflexivity). lia.
Qed.

(** X4: a varint of at most eight bytes (continuation bytes, all 0x80 or
    above, then a byte below 0x80) decodes, wherever it lies in the
    buffer, to the base-128 number of the low seven bits of its bytes,
    with its byte count as width; the value is never negative. *)
Theorem parse_varint_decodes pre cont last post :
  Forall (fun b => 128 <= ord b) cont → ord last < 128 →
  (length cont <= 7)%nat →
  parse_varint (pre ++ cont ++ last :: post) (len pre)
    = OK (base128 (cont ++ [last]), len cont + 1) ∧
  0 <= base128 (cont ++ [last]) < 128 ^ (len cont + 1).
Proof.
  intros Hc Hl Hn. split; [apply parse_varint_value; assumption|].
  pose proof (base128_bound (cont ++ [last])) as Hb.
  replace (len (cont ++ [last])) with (len cont + 1) in Hb
    by (unfold len; rewrite length_app; cbn [length]; lia).
  exact Hb.
Qed.

Lemma parse_varint_decodes_witness :
  Forall (fun b => 128 <= ord b) [x81; xff] ∧ ord x7f < 128 ∧
  (length [x81; xff] <= 7)%nat ∧
  parse_varint ([x00; x05] ++ [x81; xff] ++ x7f :: [x09]) (len [x00; x05])
    = OK (base128 ([x81; xff] ++ [x7f]), len [x81; xff] + 1) ∧
  0 <= base128 ([x81; xff] ++ [x7f]) < 128 ^ (len [x81; xff] + 1).
Proof.
  assert (H1 : Forall (fun b => 128 <= ord b) [x81; xff])
    by (repeat constructor; vm_compute; discriminate).
  assert (H2 : ord x7f < 128) by reflexivity.
  assert (H3 : (length [x81; xff] <= 7)%nat) by (simpl; lia).
  split; [exact H1|]. split; [exact H2|]. split; [exact H3|].
  exact (parse_varint_decodes [x00; x05] [x81; xff] x7f [x09] H1 H2 H3).
Defined.

(** ** Binary digits *)

Lemma int_of_bits_snoc l x : int_of_bits (l ++ [x]) = 2 * int_of_bits l + x.
Proof. unfold int_of_bits. rewrite fold_left_app. reflexivity. Qed.

Lemma int_of_pos_bits p : int_of_bits (pos_bits p) = Z.pos p.
Proof.
  induction p as [p IH|p IH|]; cbn [pos_bits];
    rewrite ?int_of_bits_snoc, ?IH; [lia|lia|reflexivity].
Qed.

Lemma pos_bits_lower p : 2 ^ (len (pos_bits p) - 1) <= Z.pos p.
Proof.
  unfold len. induction p as [p IH|p IH|]; cbn [pos_bits].
  - rewrite length_app, Nat2Z.inj_add. cbn [length].
    replace (Z.of_nat (length (pos_bits p)) + Z.of_nat 1 - 1)
      with (Z.succ (Z.of_nat (length (pos_bits p)) - 1)) by lia.
    assert (0 < length (pos_bits p))%nat by (destruct p; cbn; rewrite ?length_app; cbn; lia).
    rewrite Z.pow_succ_r by lia. lia.
  - rewrite length_app, Nat2Z.inj_add. cbn [length].
    replace (Z.of_nat (length (pos_bits p)) + Z.of_nat 1 - 1)
      with (Z.succ (Z.of_nat (length (pos_bits p)) - 1)) by lia.
    assert (0 < length (pos_bits p))%nat by (destruct p; cbn; rewrite ?length_app; cbn; lia).
    rewrite Z.pow_succ_r by lia. lia.
  - cbn. lia.
Qed.

Lemma pos_bits_binary p : Forall (fun b => b = 0 ∨ b = 1) (pos_bits p).
Proof.
  induction p as [p IH|p IH|]; cbn [pos_bits].
  - apply Forall_app. split; [exact IH|]. constructor; [now right|constructor].
  - apply Forall_app. split; [exact IH|]. constructor; [now left|constructor].
  - constructor; [now right|constructor].
Qed.

(** X5: the bits [encode_twos_comp_bits] returns are the binary digits
    of a non-negative [i] without leading zeros: digits 0 and 1, at least
    one, whose value is [i], and as few as [i] needs. *)
Theorem encode_twos_comp_bits_digits i n_bits bits :
  encode_twos_comp_bits i n_bits = OK bits →
  0 <= i ∧
  int_of_bits bits = i ∧
  Forall (fun b => b = 0 ∨ b = 1) bits ∧
  1 <= len bits ∧
  (0 < i → 2 ^ (len bits - 1) <= i) ∧
  i < 2 ^ len bits.
Proof.
  unfold encode_twos_comp_bits.
  destruct (Z.ltb_spec i 0) as [|Hi]; [discriminate|].
  destruct (Z.shiftl 1 (n_bits - 1) <=? i); [discriminate|].
  intros [= <-]. split; [assumption|].
  destruct i as [|p|p]; [| |lia].
  - repeat split; try reflexivity; try (constructor; [now left|constructor]);
      try (intros; lia).
  - cbn [bin_digits]. pose proof (pos_bits_lower p).
    pose proof (pos_bits_bound p).
    repeat split; auto using int_of_pos_bits, pos_bits_binary.
    destruct (pos_bits p) eqn:E; [destruct p; cbn in E; try discriminate;
      destruct (pos_bits p); discriminate|].
    unfold len. cbn [length]. lia.
Qed.

Lemma encode_twos_comp_bits_digits_witness :
  encode_twos_comp_bits 5 64 = OK [1; 0; 1] ∧
  0 <= 5 ∧ int_of_bits [1; 0; 1] = 5 ∧
  Forall (fun b => b = 0 ∨ b = 1) [1; 0; 1] ∧
  1 <= len [1; 0; 1] ∧
  (0 < 5 → 2 ^ (len [1; 0; 1] - 1) <= 5) ∧
  5 < 2 ^ len [1; 0; 1].
Proof.
  assert (H : encode_twos_comp_bits 5 64 = OK [1; 0; 1])
    by (vm_compute; reflexivity).
  split; [exact H|].
  exact (encode_twos_comp_bits_digits 5 64 [1; 0; 1] H).
Defined.

(** ** Column decoding: bounds and text *)

Lemma py_clamp_in_range n i : 0 <= i <= n → py_clamp n i = i.
Proof.
  intros H. unfold py_clamp.
  destruct (Z.ltb_spec i 0) as [|_]; [lia|]. cbn iota zeta.
  destruct (Z.ltb_spec i 0) as [|_]; [lia|].
  destruct (Z.leb_spec n i); lia.
Qed.

Lemma py_slice_in_range buf lo l :
  0 <= lo → 0 <= l → lo + l <= len buf →
  py_slice buf lo (lo + l) = take (Z.to_nat l) (drop (Z.to_nat lo) buf) ∧
  len (py_slice buf lo (lo + l)) = l.
Proof.
  intros Hlo Hl Hb. unfold py_slice.
  rewrite !py_clamp_in_range by lia.
  replace (lo + l - lo) with l by lia. split; [reflexivity|].
  unfold len in *. rewrite length_take, length_drop. lia.
Qed.

Lemma twos_comp_defined uint n_bits :
  0 < n_bits → ∃ v, twos_comp uint n_bits = OK v.
Proof.
  intros H. unfold twos_comp.
  destruct (Z.ltb_spec (n_bits - 1) 0) as [|_]; [lia|].
  destruct (negb _); eauto.
Qed.

Lemma land_1_odd n : Z.odd n = true → Z.land n 1 = 1.
Proof.
  intros H. change 1 with (Z.ones 1) at 1. rewrite Z.land_ones by lia.
  apply Zodd_bool_iff, Zodd_ex_iff in H as [m ->].
  change (2 ^ 1) with 2. rewrite Z.add_comm, Z.mul_comm, Z.mod_add by lia.
  reflexivity.
Qed.

Lemma land_1_cases n : Z.land n 1 = 0 ∨ Z.land n 1 = 1.
Proof.
  destruct (Z.even n) eqn:E.
  - left. now apply land_1_even.
  - right. apply land_1_odd. rewrite <- Z.negb_even, E. reflexivity.
Qed.

Lemma parse_int_column_in_bounds buf start w :
  0 <= start → 0 < w →
  match parse_int_column buf start w with
  | OK (v, w') => w' = w ∧ start + w <= len buf
  | Err e => e = SqliteParseError ColumnOverrun
  end.
Proof.
  intros Hs Hw. unfold parse_int_column, len_check.
  destruct (Z.ltb_spec (len buf - start) w) as [|Hfit]; [reflexivity|].
  unfold_bind. unfold parse_twos_comp_bytes.
  destruct (py_slice_in_range buf start w) as [_ ->]; [lia..|].
  destruct (twos_comp_defined
    (twos_comp_sum 0 (reverse (py_slice buf start (start + w))) 0) (w * 8))
    as [v ->]; [lia|].
  split; [reflexivity|lia].
Qed.

(** X6: at an offset inside the buffer, a column of a non-negative serial
    type other than 12 either decodes with a non-negative width that
    stays inside the buffer, or fails with the column-overrun or the
    reserved-serial-type parse error. *)
Theorem parse_column_in_bounds serial_type buf start :
  0 <= start <= len buf → 0 <= serial_type → serial_type ≠ 12 →
  match parse_column serial_type buf start with
  | OK (v, w) => 0 <= w ∧ start + w <= len buf
  | Err e => e = SqliteParseError ColumnOverrun ∨
             e = SqliteParseError ReservedSerialType
  end.
Proof.
  intros Hs Hst H12. unfold parse_column.
  repeat match goal with
  | |- context [serial_type =? ?c] =>
    destruct (Z.eqb_spec serial_type c) as [->|?];
      [ try (split; lia);
        try (match goal with
             | |- context [parse_int_column ?b ?s ?w] =>
               pose proof (parse_int_column_in_bounds b s w
                             ltac:(lia) ltac:(lia)) as Hi;
               destruct (parse_int_column b s w) as [[v w']|];
                 [destruct Hi as [-> ?]; split; lia|left; exact Hi]
             end)
      | ]
  end; cbn [orb].
  - unfold len_check.
    destruct (Z.ltb_spec (len buf - start) 8); [left; reflexivity|].
    unfold_bind. unfold unpack_double.
    destruct (py_slice_in_range buf start 8) as [_ ->]; [lia..|].
    cbn. lia.
  - right. reflexivity.
  - right. reflexivity.
  - assert (0 <= (serial_type - 13) / 2) by (apply Z.div_pos; lia).
    assert (Hl : ∀ r, r = OK (VStr (py_slice buf start
                                (start + (serial_type - 13) / 2)),
                         (serial_type - 13) / 2) →
      match (_ ← len_check buf start ((serial_type - 13) / 2); r) with
      | OK (_, w) => 0 <= w ∧ start + w <= len buf
      | Err e => e = SqliteParseError ColumnOverrun ∨
                 e = SqliteParseError ReservedSerialType
      end).
    { intros r ->. unfold len_check.
      destruct (Z.ltb_spec (len buf - start) ((serial_type - 13) / 2));
        [left; reflexivity|]. unfold_bind. lia. }
    destruct (land_1_cases serial_type) as [->| ->]; cbn [Z.eqb Pos.eqb];
      apply Hl; reflexivity.
Qed.

Lemma parse_column_in_bounds_witness :
  0 <= 1 <= len [x00; x01; x02; x03; x04] ∧ 0 <= 4 ∧ 4 ≠ 12 ∧
  match parse_column 4 [x00; x01; x02; x03; x04] 1 with
  | OK (v, w) => 0 <= w ∧ 1 + w <= len [x00; x01; x02; x03; x04]
  | Err e => e = SqliteParseError ColumnOverrun ∨
             e = SqliteParseError ReservedSerialType
  end.
Proof.
  assert (H : 0 <= 1 <= len [x00; x01; x02; x03; x04])
    by (vm_compute; split; discriminate).
  split; [exact H|]. split; [lia|]. split; [lia|].
  apply (parse_column_in_bounds 4 [x00; x01; x02; x03; x04] 1 H); lia.
Defined.

(** X7: for an odd serial type N from 13 on and a non-negative offset,
    [parse_column] returns the (N-13)/2 bytes at the offset, with that
    width, when they are in the buffer, and fails with the column-overrun
    parse error when they are not. *)
Theorem parse_column_text serial_type buf start :
  13 <= serial_type → Z.odd serial_type = true → 0 <= start →
  let l := (serial_type - 13) / 2 in
  (start + l <= len buf →
   parse_column serial_type buf start
     = OK (VStr (take (Z.to_nat l) (drop (Z.to_nat start) buf)), l) ∧
   len (take (Z.to_nat l) (drop (Z.to_nat start) buf)) = l) ∧
  (len buf < start + l →
   parse_column serial_type buf start = Err (SqliteParseError ColumnOverrun)).
Proof.
  intros Hst Hodd Hs l.
  assert (Hl : 0 <= l) by (apply Z.div_pos; lia).
  assert (Hc : parse_column serial_type buf start
               = (_ ← len_check buf start l;
                  OK (VStr (py_slice buf start (start + l)), l))).
  { unfold parse_column.
    repeat match goal with
    | |- context [serial_type =? ?c] =>
      destruct (Z.eqb_spec serial_type c) as [?|_]; [lia|]
    end.
    cbn [orb]. rewrite (land_1_odd _ Hodd). reflexivity. }
  rewrite Hc. unfold len_check. unfold_bind. split.
  - intros Hfit.
    destruct (Z.ltb_spec (len buf - start) l) as [|_]; [lia|].
    destruct (py_slice_in_range buf start l) as [Hsl Hlen]; [lia..|].
    rewrite <- Hsl. split; [reflexivity|exact Hlen].
  - intros Hover.
    destruct (Z.ltb_spec (len buf - start) l) as [_|]; [|lia]. reflexivity.
Qed.

Lemma parse_column_text_witness :
  13 <= 17 ∧ Z.odd 17 = true ∧ 0 <= 1 ∧
  parse_column 17 [x00; x61; x62; x63] 1 = OK (VStr [x61; x62], 2).
Proof.
  split; [lia|]. split; [reflexivity|]. split; [lia|].
  apply (parse_column_text 17 [x00; x61; x62; x63] 1); [lia|reflexivity|lia|].
  vm_compute. congruence.
Defined.

(** ** Records: invariants of a successful parse *)

Lemma read_serial_types_spec buf i stop acc i' sts :
  read_serial_types buf i stop acc = OK (i', sts) →
  ∃ new, sts = acc ++ new ∧
         i + len new <= i' <= i + 9 * len new ∧
         stop <= i' ∧
         (i <= len buf → i' <= len buf).
Proof.
  funelim (read_serial_types buf i stop acc).
  - intros [= <- <-]. exists []. rewrite app_nil_r. unfold len. cbn [length].
    repeat split; lia.
  - intros Hr.
    match goal with
    | IH : context [ex] |- _ =>
      destruct (IH _ _ Hr) as (new & Hsts & Hb & Hstop & Hlen)
    end. subst sts.
    match goal with
    | Hv : parse_varint _ _ = OK _ |- _ =>
      pose proof (parse_varint_fits _ _ _ _ Hv) as [Hw Hfit]
    end.
    exists (stype :: new). rewrite <- app_assoc. cbn [app].
    unfold len in *. cbn [length]. repeat split; try lia.
  - discriminate.
Qed.

Lemma read_serial_types_error buf i stop acc e :
  0 <= i → read_serial_types buf i stop acc = Err e →
  e = SqliteParseError BufferExhausted.
Proof.
  funelim (read_serial_types buf i stop acc).
  - discriminate.
  - intros Hi Hr.
    match goal with
    | Hv : parse_varint _ _ = OK _ |- _ =>
      pose proof (parse_varint_fits _ _ _ _ Hv) as [Hw Hfit]
    end.
    match goal with
    | IH : ∀ e, _ → _ → e = _ |- _ => apply IH; [lia|exact Hr]
    end.
  - intros Hi [= <-].
    match goal with
    | Hv : parse_varint _ _ = Err _ |- _ =>
      exact (parse_varint_error_kind _ _ _ Hi Hv)
    end.
Qed.

Lemma parse_column_fits st buf start v w :
  parse_column st buf start = OK (v, w) →
  start <= len buf → start + w <= len buf.
Proof.
  unfold parse_column, parse_int_column, len_check. unfold_bind.
  repeat match goal with
  | |- context [if ?c then _ else _] => destruct c eqn:?
  | |- context [match ?c with OK _ => _ | Err _ => _ end] => destruct c
  end; try discriminate; intros [= <- <-] Hs; try lia;
  match goal with
  | H : (_ <? _) = false |- _ => apply Z.ltb_ge in H; lia
  end.
Qed.

Lemma parse_column_not_reserved st buf start v w :
  parse_column st buf start = OK (v, w) → st ≠ 10 ∧ st ≠ 11.
Proof.
  intros H. split; intros ->; vm_compute in H; discriminate.
Qed.

Lemma parse_columns_spec buf sts : ∀ i vals i' vals',
  parse_columns buf sts i vals = OK (i', vals') →
  ∃ new, vals' = vals ++ new ∧ length new = length sts ∧
         Forall (fun st => st ≠ 10 ∧ st ≠ 11) sts ∧
         (i <= len buf → i' <= len buf).
Proof.
  induction sts as [|st sts IH]; intros i vals i' vals'; cbn [parse_columns].
  - intros [= <- <-]. exists []. rewrite app_nil_r. auto.
  - unfold_bind.
    destruct (parse_column st buf i) as [[v l]|] eqn:Ec; [|discriminate].
    intros H. apply IH in H as (new & -> & Hlen & Hres & Hfit).
    exists (v :: new). rewrite <- app_assoc. cbn [app length].
    repeat split; auto.
    + constructor; [eapply parse_column_not_reserved; eauto|assumption].
    + intros Hi. apply Hfit. eapply parse_column_fits; eauto.
Qed.

Lemma parse_record_inv buf start n_cols type_sets sts vals :
  parse_record buf start n_cols type_sets = OK (sts, vals) →
  ∃ payload_len header_start i final,
    parse_header buf start n_cols = OK (payload_len, header_start, i, sts) ∧
    match type_sets with
    | None => OK tt
    | Some ts => check_type_sets sts ts
    end = OK tt ∧
    parse_columns buf sts i [] = OK (final, vals) ∧
    final - header_start = payload_len.
Proof.
  unfold parse_record. unfold_bind.
  destruct (parse_header buf start n_cols) as [[[[pl hs] i] sts']|];
    [|discriminate].
  match goal with
  | |- context [match ?c with OK _ => _ | Err _ => _ end = _] =>
    destruct c as [[]|] eqn:Et; [|discriminate]
  end.
  destruct (parse_columns buf sts' i []) as [[final vals']|] eqn:Ec;
    [|discriminate].
  destruct (Z.eqb_spec (final - hs) pl) as [Heq|]; [|discriminate].
  cbn [negb]. intros [= -> ->]. exists pl, hs, i, final.
  rewrite Ec. repeat split; auto.
Qed.

Lemma parse_header_inv buf start n_cols payload_len header_start i sts :
  parse_header buf start n_cols = OK (payload_len, header_start, i, sts) →
  ∃ b w1 row_id w2 header_len w3,
    py_index buf start = OK b ∧ ord b ≠ 13 ∧
    parse_varint buf (start + 1) = OK (payload_len, w1) ∧
    parse_varint buf (start + 1 + w1) = OK (row_id, w2) ∧
    header_start = start + 1 + w1 + w2 ∧
    parse_varint buf header_start = OK (header_len, w3) ∧
    2 <= header_len ∧
    read_serial_types buf (header_start + w3) (header_start + header_len) []
      = OK (i, sts) ∧
    i = header_start + header_len ∧
    (∀ n, n_cols = Some n → len sts = n).
Proof.
  unfold parse_header. unfold_bind.
  destruct (py_index buf start) as [b|] eqn:Eb; [|discriminate].
  destruct (Z.eqb_spec (ord b) 13) as [|Hm]; [discriminate|].
  destruct (parse_varint buf (start + 1)) as [[pl w1]|] eqn:E1;
    [|discriminate].
  destruct (parse_varint buf (start + 1 + w1)) as [[rid w2]|] eqn:E2;
    [|discriminate].
  destruct (parse_varint buf (start + 1 + w1 + w2)) as [[hl w3]|] eqn:E3;
    [|discriminate].
  destruct (Z.ltb_spec hl 2) as [|Hhl]; [discriminate|].
  match goal with
  | |- context [match ?c with OK _ => _ | Err _ => _ end = _] =>
    destruct c; [|discriminate]
  end.
  destruct (read_serial_types _ _ _ _) as [[i' sts']|] eqn:Er;
    [|discriminate].
  destruct (Z.eqb_spec i' (start + 1 + w1 + w2 + hl)) as [->|];
    [|discriminate].
  cbn [negb]. intros H.
  assert (Hres : (payload_len, header_start, i, sts)
                 = (pl, start + 1 + w1 + w2, start + 1 + w1 + w2 + hl, sts')
                 ∧ ∀ n, n_cols = Some n → len sts' = n).
  { destruct n_cols as [n|].
    - destruct (Z.eqb_spec (len sts') n) as [Hn|]; [|discriminate].
      cbn [negb] in H. injection H as <- <- <- <-.
      split; [reflexivity|]. intros ? [= <-]. exact Hn.
    - injection H as <- <- <- <-. split; [reflexivity|]. discriminate. }
  destruct Hres as [[= -> -> -> ->] Hn].
  exists b, w1, rid, w2, hl, w3. rewrite E3, Er. repeat split; auto.
Qed.

(** X8: a record [parse_record] returns has as many values as serial
    types, holds neither reserved serial type 10 nor 11, and has
    [n_cols] columns when [n_cols] is given. *)
Theorem parse_record_well_formed buf start n_cols type_sets sts vals :
  parse_record buf start n_cols type_sets = OK (sts, vals) →
  length sts = length vals ∧
  Forall (fun st => st ≠ 10 ∧ st ≠ 11) sts ∧
  (∀ n, n_cols = Some n → len sts = n).
Proof.
  intros H. apply parse_record_inv in H as (pl & hs & i & final & Hh & _ & Hc & _).
  apply parse_columns_spec in Hc as (new & -> & Hlen & Hres & _).
  apply parse_header_inv in Hh as (? & ? & ? & ? & ? & ? & Hh).
  cbn [app]. repeat split; auto. apply Hh.
Qed.

Lemma parse_record_well_formed_witness :
  parse_record sample_record 0 (Some 1) None = OK ([15], [VStr [x61]]) ∧
  length [15] = length [VStr [x61]] ∧
  Forall (fun st => st ≠ 10 ∧ st ≠ 11) [15] ∧
  (∀ n, Some 1 = Some n → len [15] = n).
Proof.
  assert (H : parse_record sample_record 0 (Some 1) None
              = OK ([15], [VStr [x61]])) by (vm_compute; reflexivity).
  split; [exact H|].
  exact (parse_record_well_formed sample_record 0 (Some 1) None
           [15] [VStr [x61]] H).
Defined.

(** X9: when [parse_record] returns a record, the payload it declares
    lies inside the buffer: the header start (after the marker byte and
    the payload-length and row-id varints) plus the payload length does
    not pass the end of the buffer. *)
Theorem parse_record_payload_in_bounds buf start n_cols type_sets sts vals :
  parse_record buf start n_cols type_sets = OK (sts, vals) →
  ∃ payload_len w1 row_id w2,
    parse_varint buf (start + 1) = OK (payload_len, w1) ∧
    parse_varint buf (start + 1 + w1) = OK (row_id, w2) ∧
    start + 1 + w1 + w2 + payload_len <= len buf.
Proof.
  intros H. apply parse_record_inv in H as (pl & hs & i & final & Hh & _ & Hc & Hp).
  apply parse_columns_spec in Hc as (_ & _ & _ & _ & Hfit).
  apply parse_header_inv in Hh
    as (b & w1 & rid & w2 & hl & w3 & _ & _ & E1 & E2 & -> & E3 & _ & Er & _).
  apply read_serial_types_spec in Er as (_ & _ & _ & _ & Hi).
  apply parse_varint_fits in E3 as [_ E3].
  exists pl, w1, rid, w2. repeat split; auto. lia.
Qed.

Lemma parse_record_payload_in_bounds_witness :
  parse_record sample_record 0 None None = OK ([15], [VStr [x61]]) ∧
  ∃ payload_len w1 row_id w2,
    parse_varint sample_record (0 + 1) = OK (payload_len, w1) ∧
    parse_varint sample_record (0 + 1 + w1) = OK (row_id, w2) ∧
    0 + 1 + w1 + w2 + payload_len <= len sample_record.
Proof.
  assert (H : parse_record sample_record 0 None None
              = OK ([15], [VStr [x61]])) by (vm_compute; reflexivity).
  split; [exact H|].
  exact (parse_record_payload_in_bounds sample_record 0 None None
           [15] [VStr [x61]] H).
Defined.

(** ** Records: the column-count hint *)

Lemma parse_header_intro buf start n_cols b pl w1 rid w2 hl w3 sts :
  py_index buf start = OK b → ord b ≠ 13 →
  parse_varint buf (start + 1) = OK (pl, w1) →
  parse_varint buf (start + 1 + w1) = OK (rid, w2) →
  parse_varint buf (start + 1 + w1 + w2) = OK (hl, w3) →
  2 <= hl →
  read_serial_types buf (start + 1 + w1 + w2 + w3)
    (start + 1 + w1 + w2 + hl) [] = OK (start + 1 + w1 + w2 + hl, sts) →
  (∀ n, n_cols = Some n → len sts = n) →
  parse_header buf start n_cols
    = OK (pl, start + 1 + w1 + w2, start + 1 + w1 + w2 + hl, sts).
Proof.
  intros Eb Hm E1 E2 E3 Hhl Er Hn.
  pose proof (parse_varint_fits _ _ _ _ E3) as [Hw3 _].
  pose proof (read_serial_types_spec _ _ _ _ _ _ Er)
    as (new & Hnew & Hb & _ & _).
  cbn [app] in Hnew. subst new.
  unfold parse_header. rewrite Eb. unfold_bind. cbn beta iota zeta.
  destruct (Z.eqb_spec (ord b) 13) as [|_]; [contradiction|].
  rewrite E1. cbn beta iota zeta. rewrite E2. cbn beta iota zeta.
  rewrite E3. cbn beta iota zeta.
  destruct (Z.ltb_spec hl 2) as [|_]; [lia|].
  destruct n_cols as [n|].
  - specialize (Hn n eq_refl).
    destruct (Z.ltb_spec (9 * (1 + n)) hl) as [|_]; [lia|].
    destruct (Z.ltb_spec hl (1 * (1 + n))) as [|_]; [lia|].
    rewrite Er. cbn beta iota zeta. rewrite Z.eqb_refl. cbn [negb].
    destruct (Z.eqb_spec (len sts) n) as [_|]; [reflexivity|contradiction].
  - rewrite Er. cbn beta iota zeta. rewrite Z.eqb_refl. reflexivity.
Qed.

Lemma parse_header_n_cols buf start n pl hs i sts :
  parse_header buf start (Some n) = OK (pl, hs, i, sts) ↔
  parse_header buf start None = OK (pl, hs, i, sts) ∧ len sts = n.
Proof.
  split.
  - intros H. apply parse_header_inv in H
      as (b & w1 & rid & w2 & hl & w3 & Eb & Hm & E1 & E2 & -> & E3 & Hhl
          & Er & -> & Hn).
    split; [|apply Hn; reflexivity].
    eapply parse_header_intro; eauto. discriminate.
  - intros [H Hlen]. apply parse_header_inv in H
      as (b & w1 & rid & w2 & hl & w3 & Eb & Hm & E1 & E2 & -> & E3 & Hhl
          & Er & -> & _).
    eapply parse_header_intro; eauto. intros ? [= <-]. exact Hlen.
Qed.

(** X10: giving [n_cols] only filters: [parse_record] returns a record
    with [n_cols = n] exactly when it returns that record without
    [n_cols] and the record has [n] columns. The header-length range test
    never refuses a record that has the expected number of columns. *)
Theorem parse_record_n_cols_filter buf start n type_sets sts vals :
  parse_record buf start (Some n) type_sets = OK (sts, vals) ↔
  parse_record buf start None type_sets = OK (sts, vals) ∧ len sts = n.
Proof.
  split.
  - intros H. pose proof H as H'.
    apply parse_record_inv in H' as (pl & hs & i & final & Hh & _).
    apply parse_header_n_cols in Hh as [Hh Hlen]. split; [|exact Hlen].
    revert H. unfold parse_record.
    rewrite Hh, (proj2 (parse_header_n_cols buf start n pl hs i sts)); auto.
  - intros [H Hlen]. pose proof H as H'.
    apply parse_record_inv in H' as (pl & hs & i & final & Hh & _).
    revert H. unfold parse_record.
    rewrite Hh, (proj2 (parse_header_n_cols buf start n pl hs i sts)); auto.
Qed.

Lemma parse_record_n_cols_filter_witness :
  parse_record sample_record 0 (Some 1) None = OK ([15], [VStr [x61]]) ↔
  parse_record sample_record 0 None None = OK ([15], [VStr [x61]]) ∧
  len [15] = 1.
Proof.
  exact (parse_record_n_cols_filter sample_record 0 1 None
           [15] [VStr [x61]]).
Defined.

(** ** Records: the exceptions of a parse *)

Lemma parse_header_error buf start n_cols e :
  0 <= start < len buf →
  parse_header buf start n_cols = Err e → ∃ r, e = SqliteParseError r.
Proof.
  intros Hs. unfold parse_header.
  destruct (py_index_in_range buf start Hs) as (b & _ & ->).
  unfold_bind. cbn beta iota zeta.
  destruct (ord b =? 13); [intros [= <-]; eauto|].
  destruct (parse_varint buf (start + 1)) as [[pl w1]|] eqn:E1.
  2: { intros [= <-]. apply parse_varint_error_kind in E1; [eauto|lia]. }
  pose proof (parse_varint_fits _ _ _ _ E1) as [Hw1 _].
  destruct (parse_varint buf (start + 1 + w1)) as [[rid w2]|] eqn:E2.
  2: { intros [= <-]. apply parse_varint_error_kind in E2; [eauto|lia]. }
  pose proof (parse_varint_fits _ _ _ _ E2) as [Hw2 _].
  destruct (parse_varint buf (start + 1 + w1 + w2)) as [[hl w3]|] eqn:E3.
  2: { intros [= <-]. apply parse_varint_error_kind in E3; [eauto|lia]. }
  pose proof (parse_varint_fits _ _ _ _ E3) as [Hw3 _].
  destruct (hl <? 2); [intros [= <-]; eauto|].
  match goal with
  | |- context [match ?c with OK _ => _ | Err _ => _ end = _] =>
    destruct c as [[]|e'] eqn:En
  end.
  2: { intros [= <-]. destruct n_cols as [n|]; [|discriminate].
       destruct (_ <? _); [injection En as <-; eauto|].
       destruct (_ <? _); [injection En as <-; eauto|discriminate]. }
  destruct (read_serial_types _ _ _ _) as [[i' sts']|] eqn:Er.
  2: { intros [= <-]. apply read_serial_types_error in Er; [eauto|lia]. }
  destruct (negb _); [intros [= <-]; eauto|].
  destruct n_cols as [n|]; [|discriminate].
  destruct (negb _); [intros [= <-]; eauto|discriminate].
Qed.

Lemma parse_column_error st buf start e :
  parse_column st buf start = Err e →
  (∃ r, e = SqliteParseError r) ∨ e = ValueError ∨ e = StructError.
Proof.
  unfold parse_column, parse_int_column, parse_twos_comp_bytes, twos_comp,
    unpack_double, len_check. unfold_bind.
  destruct (land_1_cases st) as [-> | ->]; cbn [Z.eqb Pos.eqb];
  repeat match goal with
  | |- context [if ?c then _ else _] => destruct c
  end; try discriminate; intros [= <-]; eauto.
Qed.

Lemma parse_columns_error buf sts : ∀ i vals e,
  parse_columns buf sts i vals = Err e →
  (∃ r, e = SqliteParseError r) ∨ e = ValueError ∨ e = StructError.
Proof.
  induction sts as [|st sts IH]; intros i vals e; cbn [parse_columns];
    [discriminate|]. unfold_bind.
  destruct (parse_column st buf i) as [[v l]|] eqn:Ec.
  - apply IH.
  - intros [= <-]. eapply parse_column_error; eauto.
Qed.

(** X11: with the start offset inside the buffer, [parse_record] never
    ends in [IndexError], [NotImplementedError] or [AssertionError]: a
    failure is a [SqliteParseError], a [ValueError], a [struct.error],
    or, only when type sets are given, a [NameError]. *)
Theorem parse_record_error_kinds buf start n_cols type_sets e :
  0 <= start < len buf →
  parse_record buf start n_cols type_sets = Err e →
  (∃ r, e = SqliteParseError r) ∨ e = ValueError ∨ e = StructError ∨
  (e = NameError ∧ type_sets ≠ None).
Proof.
  intros Hs. unfold parse_record. unfold_bind.
  destruct (parse_header buf start n_cols) as [[[[pl hs] i] sts]|] eqn:Eh.
  2: { intros [= <-]. left. eapply parse_header_error; eauto. }
  destruct type_sets as [ts|].
  - destruct (check_type_sets sts ts) as [[]|e'] eqn:Et.
    2: { intros [= <-]. right. right. right. split; [|discriminate].
         clear -Et. revert ts Et.
         induction sts as [|st sts IH]; intros [|[t|] ts];
           cbn [check_type_sets]; try discriminate; try apply IH.
         repeat match goal with
         | |- context [if ?c then _ else _] => destruct c
         end; try apply IH; congruence. }
    destruct (parse_columns buf sts i []) as [[final vals]|] eqn:Ec.
    + destruct (negb _); [intros [= <-]; eauto|discriminate].
    + intros [= <-]. apply parse_columns_error in Ec.
      destruct Ec as [?|[?|?]]; auto.
  - destruct (parse_columns buf sts i []) as [[final vals]|] eqn:Ec.
    + destruct (negb _); [intros [= <-]; eauto|discriminate].
    + intros [= <-]. apply parse_columns_error in Ec.
      destruct Ec as [?|[?|?]]; auto.
Qed.

Lemma parse_record_error_kinds_witness :
  0 <= 0 < len [x0d; x02] ∧
  parse_record [x0d; x02] 0 None None
    = Err (SqliteParseError MissingMarker) ∧
  ((∃ r, SqliteParseError MissingMarker = SqliteParseError r) ∨
   SqliteParseError MissingMarker = ValueError ∨
   SqliteParseError MissingMarker = StructError ∨
   (SqliteParseError MissingMarker = NameError ∧
    @None (list (option (gset (Z + string)))) ≠ None)).
Proof.
  assert (H1 : 0 <= 0 < len [x0d; x02]) by (vm_compute; split; congruence).
  assert (H2 : parse_record [x0d; x02] 0 None None
               = Err (SqliteParseError MissingMarker))
    by (vm_compute; reflexivity).
  split; [exact H1|]. split; [exact H2|].
  exact (parse_record_error_kinds [x0d; x02] 0 None None _ H1 H2).
Defined.

(** ** Backward scan: bounds and round trip *)

Lemma py_index_defined buf j :
  - len buf <= j < len buf → ∃ b, py_index buf j = OK b ∧ b ∈ buf.
Proof.
  intros Hj. destruct (Z.ltb_spec j 0) as [Hneg|Hpos].
  - destruct (py_index_in_range buf (j + len buf)) as (b & Hl & Hp); [lia|].
    exists b. split; [|eapply list_elem_of_lookup_2; eauto].
    clear Hp. unfold py_index.
    destruct (Z.ltb_spec j 0) as [_|]; [|lia]. cbn iota zeta.
    destruct (Z.ltb_spec (j + len buf) 0) as [|_]; [lia|].
    destruct (Z.leb_spec (len buf) (j + len buf)) as [|_]; [lia|].
    cbn [orb]. rewrite Hl. reflexivity.
  - destruct (py_index_in_range buf j) as (b & Hl & Hp); [lia|].
    exists b. split; [exact Hp|eapply list_elem_of_lookup_2; eauto].
Qed.

Lemma low_bit_test (b : byte) :
  (Z.land (ord b) 128 =? 0) = (ord b <? 128).
Proof. destruct b; vm_compute; reflexivity. Qed.

Lemma scan_back_pos k buf : ∀ pos j pos' j',
  scan_back k buf pos j = OK (pos', j') →
  pos - Z.of_nat k <= pos' <= pos.
Proof.
  induction k as [|k IH]; intros pos j pos' j'; cbn [scan_back].
  - intros [= <- _]. lia.
  - unfold_bind. destruct (py_index buf (pos - 1)) as [b|]; [|discriminate].
    destruct (negb _).
    + intros [= <- _]. lia.
    + intros H. apply IH in H. lia.
Qed.

Lemma count_varints_loop_bounds buf n : ∀ pos pos',
  count_varints_loop n buf pos = OK pos' →
  pos - 9 * Z.of_nat n <= pos' <= pos - Z.of_nat n.
Proof.
  induction n as [|n IH]; intros pos pos'; cbn [count_varints_loop].
  - intros [= <-]. lia.
  - unfold_bind. destruct (py_index buf (pos - 1)) as [b|]; [|discriminate].
    cbn beta iota zeta.
    destruct (scan_back 8 buf (pos - 1) 0) as [[p j]|] eqn:Es;
      [|discriminate].
    apply scan_back_pos in Es.
    destruct (_ && _); [discriminate|].
    intros H. apply IH in H. lia.
Qed.

(** X12: [count_varints] returns a position only for a positive [n] and
    a backward scan, and the position is between [n] and [9 * n] bytes
    before [start]. *)
Theorem count_varints_bounds buf start n backward pos :
  count_varints buf start n backward = OK pos →
  0 < n ∧ backward = true ∧ start - 9 * n <= pos <= start - n.
Proof.
  unfold count_varints.
  destruct (Z.ltb_spec 0 n) as [Hn|]; [|discriminate]. cbn [negb].
  destruct backward; [|discriminate]. cbn [negb].
  intros H. apply count_varints_loop_bounds in H. lia.
Qed.

Lemma count_varints_bounds_witness :
  count_varints [x00; x81; x05; x07] 4 2 true = OK 1 ∧
  0 < 2 ∧ true = true ∧ 4 - 9 * 2 <= 1 <= 4 - 2.
Proof.
  assert (H : count_varints [x00; x81; x05; x07] 4 2 true = OK 1)
    by (vm_compute; reflexivity).
  split; [exact H|].
  exact (count_varints_bounds [x00; x81; x05; x07] 4 2 true 1 H).
Defined.

Lemma scan_back_stops k buf pos j b :
  py_index buf (pos - 1) = OK b → ord b < 128 →
  scan_back (S k) buf pos j = OK (pos, j).
Proof.
  intros Hb Hlow. cbn [scan_back]. rewrite Hb. unfold_bind.
  rewrite high_bit_test.
  destruct (Z.leb_spec 128 (ord b)) as [|_]; [lia|]. reflexivity.
Qed.

Lemma count_varints_loop_single_bytes buf :
  Forall (fun b => ord b < 128) buf →
  ∀ n pos, Z.of_nat n <= pos <= len buf →
    count_varints_loop n buf pos = OK (pos - Z.of_nat n).
Proof.
  intros Hall. rewrite Forall_forall in Hall.
  induction n as [|n IH]; intros pos Hpos; cbn [count_varints_loop].
  - f_equal. lia.
  - destruct (py_index_defined buf (pos - 1)) as (b & Eb & Hb); [lia|].
    destruct (py_index_defined buf (pos - 1 - 1)) as (b' & Eb' & Hb');
      [lia|].
    apply Hall in Hb, Hb'. cbn zeta. rewrite Eb. unfold_bind.
    rewrite (scan_back_stops _ _ _ _ _ Eb' Hb'), low_bit_test.
    destruct (Z.ltb_spec (ord b) 128) as [_|]; [|lia].
    cbn [negb andb]. rewrite IH by lia. f_equal. lia.
Qed.

(** X13: in a buffer whose bytes are all below 0x80 (one-byte varints
    only), scanning back [n] varints from [start], with
    [0 < n <= start <= len(buf)], returns [start - n]. *)
Theorem count_varints_single_bytes buf start n :
  Forall (fun b => ord b < 128) buf →
  0 < n → n <= start <= len buf →
  count_varints buf start n true = OK (start - n).
Proof.
  intros Hall Hn Hs. unfold count_varints.
  destruct (Z.ltb_spec 0 n) as [_|]; [|lia]. cbn [negb].
  rewrite count_varints_loop_single_bytes by (auto; lia). f_equal. lia.
Qed.

Lemma count_varints_single_bytes_witness :
  Forall (fun b => ord b < 128) [x01; x7f; x00] ∧ 0 < 3 ∧
  3 <= 3 <= len [x01; x7f; x00] ∧
  count_varints [x01; x7f; x00] 3 3 true = OK (3 - 3).
Proof.
  assert (H1 : Forall (fun b => ord b < 128) [x01; x7f; x00])
    by (repeat constructor).
  assert (H2 : 3 <= 3 <= len [x01; x7f; x00])
    by (vm_compute; split; discriminate).
  split; [exact H1|]. split; [lia|]. split; [exact H2|].
  apply (count_varints_single_bytes [x01; x7f; x00] 3 3 H1); [lia|exact H2].
Defined.

Ltac len_solve :=
  unfold len; rewrite ?length_app; cbn [length]; rewrite ?length_app;
  cbn [length]; lia.

Lemma scan_back_run pre p cont :
  ord p < 128 → Forall (fun b => 128 <= ord b) cont →
  ∀ (k j : nat) tail, (length cont < k)%nat →
    scan_back k (pre ++ p :: cont ++ tail) (len pre + 1 + len cont) j
      = OK (len pre + 1, (j + length cont)%nat).
Proof.
  intros Hp. induction cont as [|c cont IH] using rev_ind;
    intros Hc k j tail Hk.
  - destruct k as [|k]; [cbn in Hk; lia|]. cbn [scan_back app].
    replace (len pre + 1 + len (@nil byte) - 1) with (len pre)
      by (unfold len; cbn; lia).
    rewrite py_index_middle. unfold_bind. rewrite high_bit_test.
    destruct (Z.leb_spec 128 (ord p)) as [|_]; [lia|]. cbn [negb].
    unfold len. cbn [length]. do 2 f_equal; lia.
  - apply Forall_app in Hc as [Hc Hhi]. rewrite Forall_singleton in Hhi.
    destruct k as [|k]; [cbn in Hk; lia|]. cbn [scan_back].
    rewrite length_app in Hk. cbn [length] in Hk.
    rewrite <- app_assoc. cbn [app].
    replace (len pre + 1 + len (cont ++ [c]) - 1)
      with (len (pre ++ p :: cont))
      by len_solve.
    replace (pre ++ p :: cont ++ c :: tail)
      with ((pre ++ p :: cont) ++ c :: tail)
      by (rewrite <- app_assoc; reflexivity).
    rewrite py_index_middle. unfold_bind. rewrite high_bit_test.
    destruct (Z.leb_spec 128 (ord c)) as [_|]; [|lia]. cbn [negb].
    rewrite <- app_assoc. cbn [app].
    replace (len (pre ++ p :: cont)) with (len pre + 1 + len cont)
      by len_solve.
    rewrite (IH Hc) by lia. do 2 f_equal. rewrite length_app.
    cbn [length]. lia.
Qed.

(** X14: the backward scan undoes the forward decode. For a varint of at
    most eight bytes that follows a byte below 0x80, [parse_varint] at
    its first byte consumes exactly its bytes, and [count_varints] from
    the position after its last byte returns the position of its first
    byte. *)
Theorem count_varints_finds_varint_start pre p cont last post :
  ord p < 128 → Forall (fun b => 128 <= ord b) cont → ord last < 128 →
  (length cont <= 7)%nat →
  let buf := pre ++ p :: cont ++ last :: post in
  let start := len pre + 1 in
  parse_varint buf start = OK (base128 (cont ++ [last]), len cont + 1) ∧
  count_varints buf (start + (len cont + 1)) 1 true = OK start.
Proof.
  intros Hp Hc Hl Hn buf start. split.
  - subst buf start.
    replace (pre ++ p :: cont ++ last :: post)
      with ((pre ++ [p]) ++ cont ++ last :: post)
      by (rewrite <- app_assoc; reflexivity).
    replace (len pre + 1) with (len (pre ++ [p]))
      by len_solve.
    apply parse_varint_value; assumption.
  - unfold count_varints. change (0 <? 1) with true.
    change (Z.to_nat 1) with 1%nat. cbn [negb count_varints_loop].
    subst buf start.
    replace (len pre + 1 + (len cont + 1) - 1)
      with (len (pre ++ p :: cont))
      by len_solve.
    replace (pre ++ p :: cont ++ last :: post)
      with ((pre ++ p :: cont) ++ last :: post)
      by (rewrite <- app_assoc; reflexivity).
    rewrite py_index_middle. unfold_bind. cbn beta iota zeta.
    rewrite <- app_assoc. cbn [app].
    replace (len (pre ++ p :: cont)) with (len pre + 1 + len cont)
      by len_solve.
    rewrite (scan_back_run pre p cont Hp Hc 8%nat 0%nat (last :: post))
      by lia.
    cbn beta iota zeta. rewrite low_bit_test.
    destruct (Z.ltb_spec (ord last) 128) as [_|]; [|lia]. reflexivity.
Qed.

Lemma count_varints_finds_varint_start_witness :
  ord x05 < 128 ∧ Forall (fun b => 128 <= ord b) [x81; xff] ∧
  ord x7f < 128 ∧ (length [x81; xff] <= 7)%nat ∧
  parse_varint ([x00] ++ x05 :: [x81; xff] ++ x7f :: [x09]) (len [x00] + 1)
    = OK (base128 ([x81; xff] ++ [x7f]), len [x81; xff] + 1) ∧
  count_varints ([x00] ++ x05 :: [x81; xff] ++ x7f :: [x09])
    (len [x00] + 1 + (len [x81; xff] + 1)) 1 true = OK (len [x00] + 1).
Proof.
  assert (H1 : ord x05 < 128) by reflexivity.
  assert (H2 : Forall (fun b => 128 <= ord b) [x81; xff])
    by (repeat constructor; vm_compute; discriminate).
  assert (H3 : ord x7f < 128) by reflexivity.
  assert (H4 : (length [x81; xff] <= 7)%nat) by (simpl; lia).
  split; [exact H1|]. split; [exact H2|]. split; [exact H3|].
  split; [exact H4|].
  exact (count_varints_finds_varint_start [x00] x05 [x81; xff] x7f [x09]
           H1 H2 H3 H4).
Defined.

(** ** Type sets *)

(** X15: the type-set check passes when every column that has a type
    set has its serial type literally in that set; columns whose entry
    is [None], and columns or entries without a counterpart, are not
    checked. *)
Theorem check_type_sets_literal (sts : list Z)
    (tss : list (option (gset (Z + string)))) :
  (∀ (k : nat) st s,
     sts !! k = Some st → tss !! k = Some (Some s) → inl st ∈ s) →
  check_type_sets sts tss = OK tt.
Proof.
  revert tss. induction sts as [|st sts IH]; intros [|[s|] tss] H;
    cbn [check_type_sets]; try reflexivity.
  - assert (Hin : inl st ∈ s) by (apply (H 0%nat); reflexivity).
    assert (Hrest : check_type_sets sts tss = OK tt).
    { apply IH. intros k st' s' H1 H2. apply (H (S k)); assumption. }
    rewrite Hrest, (bool_decide_eq_true_2 _ Hin). cbn [negb].
    repeat match goal with
    | |- context [if ?c then _ else _] => destruct c
    end; reflexivity.
  - apply IH. intros k st' s' H1 H2. apply (H (S k)); assumption.
Qed.

Lemma check_type_sets_literal_witness :
  check_type_sets [1; 15] [Some {[ inl 1; inl 2 ]}; None; Some {[ inl 3 ]}]
    = OK tt.
Proof.
  apply check_type_sets_literal.
  intros [|[|k]] st s H1 H2; try discriminate.
  injection H1 as <-. injection H2 as <-. set_solver.
Defined.

(** ** Column decoding: fixed widths *)

Lemma parse_int_column_fits buf start w :
  0 <= start → 0 < w →
  (start + w <= len buf → ∃ v, parse_int_column buf start w = OK (VInt v, w)) ∧
  (len buf < start + w →
   parse_int_column buf start w = Err (SqliteParseError ColumnOverrun)).
Proof.
  intros Hs Hw. unfold parse_int_column, len_check. split.
  - intros Hfit.
    destruct (Z.ltb_spec (len buf - start) w) as [|_]; [lia|].
    unfold_bind. unfold parse_twos_comp_bytes.
    destruct (py_slice_in_range buf start w) as [_ ->]; [lia..|].
    destruct (twos_comp_defined
      (twos_comp_sum 0 (reverse (py_slice buf start (start + w))) 0) (w * 8))
      as [v ->]; [lia|].
    exists v. reflexivity.
  - intros Hover.
    destruct (Z.ltb_spec (len buf - start) w) as [_|]; [|lia]. reflexivity.
Qed.

(** X16: the fixed widths of [parse_column]. Serial types 0, 8 and 9
    give [None], 0 and 1 with width 0 whatever the buffer and the offset.
    At a non-negative offset, the integer serial types 1 to 6 and the
    float serial type 7 decode, with widths 1, 2, 3, 4, 6, 8 and 8,
    exactly when that many bytes are left, and fail with the
    column-overrun parse error otherwise. *)
Theorem parse_column_fixed_widths buf start :
  parse_column 0 buf start = OK (VNone, 0) ∧
  parse_column 8 buf start = OK (VInt 0, 0) ∧
  parse_column 9 buf start = OK (VInt 1, 0) ∧
  (0 <= start →
   ∀ st w, (st, w) ∈ [(1, 1); (2, 2); (3, 3); (4, 4); (5, 6); (6, 8); (7, 8)] →
     (start + w <= len buf → ∃ v, parse_column st buf start = OK (v, w)) ∧
     (len buf < start + w →
      parse_column st buf start = Err (SqliteParseError ColumnOverrun))).
Proof.
  repeat split; try reflexivity.
  - intros Hfit.
    repeat match goal with
    | H : _ ∈ _ :: _ |- _ => apply elem_of_cons in H as [[= -> ->]|H]
    | H : _ ∈ [] |- _ => apply elem_of_nil in H; contradiction
    end;
    try (match goal with
         | |- ∃ v, parse_column ?st _ _ = OK (v, ?w) =>
           change (parse_column st buf start) with (parse_int_column buf start w);
           destruct (parse_int_column_fits buf start w) as [Hok _]; [lia..|];
           destruct (Hok Hfit) as [v ->]; eauto
         end).
    change (parse_column 7 buf start)
      with (_ ← len_check buf start 8;
            v ← unpack_double (py_slice buf start (start + 8)); OK (v, 8)).
    unfold len_check, unpack_double.
    destruct (Z.ltb_spec (len buf - start) 8) as [|_]; [lia|]. unfold_bind.
    destruct (py_slice_in_range buf start 8) as [_ ->]; [lia..|].
    eexists. reflexivity.
  - intros Hover.
    repeat match goal with
    | H : _ ∈ _ :: _ |- _ => apply elem_of_cons in H as [[= -> ->]|H]
    | H : _ ∈ [] |- _ => apply elem_of_nil in H; contradiction
    end;
    try (match goal with
         | |- parse_column ?st _ _ = Err _ =>
           change (parse_column st buf start)
             with (parse_int_column buf start st);
           apply parse_int_column_fits; lia
         end).
    + change (parse_column 5 buf start) with (parse_int_column buf start 6).
      apply parse_int_column_fits; lia.
    + change (parse_column 6 buf start) with (parse_int_column buf start 8).
      apply parse_int_column_fits; lia.
    + change (parse_column 7 buf start)
        with (_ ← len_check buf start 8;
              v ← unpack_double (py_slice buf start (start + 8)); OK (v, 8)).
      unfold len_check.
      destruct (Z.ltb_spec (len buf - start) 8) as [_|]; [|lia]. reflexivity.
Qed.

Lemma parse_column_fixed_widths_witness :
  0 <= 1 ∧
  (5, 6) ∈ [(1, 1); (2, 2); (3, 3); (4, 4); (5, 6); (6, 8); (7, 8)] ∧
  (1 + 6 <= len [x00; x01; x02; x03; x04; x05; x06] →
   ∃ v, parse_column 5 [x00; x01; x02; x03; x04; x05; x06] 1 = OK (v, 6)) ∧
  (len [x00; x01; x02; x03; x04; x05; x06] < 1 + 6 →
   parse_column 5 [x00; x01; x02; x03; x04; x05; x06] 1
     = Err (SqliteParseError ColumnOverrun)).
Proof.
  assert (H : (5, 6) ∈ [(1, 1); (2, 2); (3, 3); (4, 4); (5, 6); (6, 8); (7, 8)])
    by (rewrite !elem_of_cons; auto 10).
  split; [lia|]. split; [exact H|].
  destruct (parse_column_fixed_widths [x00; x01; x02; x03; x04; x05; x06] 1)
    as (_ & _ & _ & Hw).
  exact (Hw ltac:(lia) 5 6 H).
Defined.
